(** * The goban move-and-capture engine of Giles ([giles/games/goban.py])

    A shallow embedding of the [Goban] class: the grid, [resize], [invert],
    [is_valid], [go_play], [go_find_captures] and [recurse_captures], followed
    by the properties of the engine.

    Conventions of the embedding.
    - Python integers are [Z]; a cell of the board is [option Color], with
      [None] for Python's [None] (an empty point).
    - A Python list is a Rocq [list]; subscripting follows Python, negative
      subscripts count from the end and a subscript out of range raises
      [IndexError].
    - A method that mutates [self] takes the board and returns the new one.
      The visitation table, which Python mutates in place through every
      recursive call, is threaded through [recurse_captures] and returned,
      so the marks left by a traversal that bailed out on a liberty are
      still in the table its caller holds.
    - A local variable that may never have been assigned is an [option];
      reading it while it is [None] raises [UnboundLocalError].
    - [printable_board] is text rendering over the grid, kept out of the
      board record: [update_printable_board] reads the grid and the methods
      read nothing of what it writes.  It is embedded apart, as the function
      from the board to the lines it stores, with [LETTERS] of [giles.utils]
      as a parameter. *)

From stdpp Require Import base list strings.
From Stdlib Require Import ZArith Lia DecimalString.

Open Scope Z_scope.

(** ** Results of Python code *)

Inductive exn := IndexError | TypeError | UnboundLocalError.

(** [Ret] is a normal return, [Raise] an exception that leaves the method,
    [Diverge] the exhaustion of the recursion budget of the embedding. *)
Inductive outcome (A : Type) :=
| Ret (a : A)
| Raise (e : exn)
| Diverge.
Arguments Ret {A} a.
Arguments Raise {A} e.
Arguments Diverge {A}.

#[global] Instance outcome_bind : MBind outcome := fun A B k m =>
  match m with
  | Ret a => k a
  | Raise e => Raise e
  | Diverge => Diverge
  end.

(** ** Python list subscripting *)

(** The position a subscript [i] denotes in a list of [n] items. *)
Definition py_index (n : nat) (i : Z) : option nat :=
  if 0 <=? i then (if i <? Z.of_nat n then Some (Z.to_nat i) else None)
  else (if 0 <=? Z.of_nat n + i then Some (Z.to_nat (Z.of_nat n + i)) else None).

(** [l[i]] *)
Definition getitem {A} (l : list A) (i : Z) : outcome A :=
  match py_index (length l) i with
  | Some k => match l !! k with Some x => Ret x | None => Raise IndexError end
  | None => Raise IndexError
  end.

(** [l[i] = x] *)
Definition setitem {A} (l : list A) (i : Z) (x : A) : outcome (list A) :=
  match py_index (length l) i with
  | Some k => Ret (<[k:=x]> l)
  | None => Raise IndexError
  end.

(** [m[r][c]] *)
Definition getitem2 {A} (m : list (list A)) (r c : Z) : outcome A :=
  row ← getitem m r; getitem row c.

(** [m[r][c] = x] *)
Definition setitem2 {A} (m : list (list A)) (r c : Z) (x : A) : outcome (list (list A)) :=
  row ← getitem m r;
  row' ← setitem row c x;
  setitem m r row'.

(** [[x] * n], and a list of [h] such rows, each one a list of its own. *)
Definition py_repeat {A} (x : A) (n : Z) : list A := replicate (Z.to_nat n) x.
Definition grid {A} (x : A) (h w : Z) : list (list A) :=
  replicate (Z.to_nat h) (py_repeat x w).

(** ** The board *)

Inductive Color := WHITE | BLACK.

Definition Color_eqb (a b : Color) : bool :=
  match a, b with
  | WHITE, WHITE | BLACK, BLACK => true
  | _, _ => false
  end.

Definition opponent (c : Color) : Color :=
  match c with WHITE => BLACK | BLACK => WHITE end.

Definition MIN_SIZE : Z := 3.
Definition MAX_SIZE : Z := 26.

Definition coord : Type := Z * Z.

(** Deltas for a square grid. *)
Definition SQUARE_DELTAS : list coord := [(-1, 0); (1, 0); (0, -1); (0, 1)].

Record Goban := mkGoban {
  width : Z;
  height : Z;
  board : list (list (option Color));
  last_row : option Z;
  last_col : option Z
}.

Definition set_board (g : Goban) (b : list (list (option Color))) : Goban :=
  mkGoban (width g) (height g) b (last_row g) (last_col g).

(** [init_board]: a new, empty board at the current size. *)
Definition init_board (g : Goban) : Goban :=
  set_board g (grid None (height g) (width g)).

(** [__init__] *)
Definition new_goban : Goban :=
  init_board (mkGoban 19 19 [] None None).

(** [resize]; the method returns [None] on both of its paths, so only the
    board tells the two apart. *)
Definition resize (g : Goban) (w h : Z) : Goban :=
  if (w <? MIN_SIZE) || (w >? MAX_SIZE) || (h <? MIN_SIZE) || (h >? MAX_SIZE)
  then g
  else init_board (mkGoban w h (board g) (last_row g) (last_col g)).

Definition invert_cell (c : option Color) : option Color :=
  match c with
  | Some BLACK => Some WHITE
  | Some WHITE => Some BLACK
  | None => None
  end.

(** [invert]: a new grid, built row by row, replaces the old one. *)
Definition invert (g : Goban) : Goban :=
  set_board g (map (map invert_cell) (board g)).

Definition is_valid (g : Goban) (row col : Z) : bool :=
  (0 <=? row) && (row <? height g) && (0 <=? col) && (col <? width g).

(** ** Group and liberty analysis *)

(** A visitation table: [false] stands for the [None] the table is filled
    with, [true] for a visited cell. *)
Definition table : Type := list (list bool).

(** What [recurse_captures] returns, with the table as it leaves it:
    [None] for Python's [None], [Some []] for a liberty found, [Some l] for
    the stones met when no liberty was. *)
Definition traced : Type := option (list coord) * table.

(** The [for delta in SQUARE_DELTAS] loop of [recurse_captures]; [rec] is
    the recursive call. *)
Fixpoint recurse_deltas (rec : Z -> Z -> table -> outcome traced)
    (row col : Z) (deltas : list coord) (return_list : list coord)
    (visit_table : table) : outcome traced :=
  match deltas with
  | [] => Ret (Some return_list, visit_table)
  | delta :: deltas =>
      '(recurse_return, visit_table) ← rec (row + delta.1) (col + delta.2) visit_table;
      match recurse_return with
      | Some [] => Ret (Some [], visit_table)
      | Some found => recurse_deltas rec row col deltas (return_list ++ found) visit_table
      | None => recurse_deltas rec row col deltas return_list visit_table
      end
  end.

Fixpoint recurse_captures (fuel : nat) (g : Goban) (color : Color)
    (row col : Z) (visit_table : table) : outcome traced :=
  match fuel with
  | O => Diverge
  | S fuel =>
      if negb (is_valid g row col) then Ret (None, visit_table) else
      seen ← getitem2 visit_table row col;
      if seen : bool then Ret (None, visit_table) else
      here ← getitem2 (board g) row col;
      match here with
      | None => Ret (Some [], visit_table)
      | Some c =>
          if negb (Color_eqb c color) then Ret (None, visit_table) else
          visit_table ← setitem2 visit_table row col true;
          recurse_deltas (recurse_captures fuel g color) row col SQUARE_DELTAS
            [(row, col)] visit_table
      end
  end.

(** Frames granted to one traversal: one for every cell of the board and one
    for the call that bails out. *)
Definition recursion_budget (g : Goban) : nat :=
  S (Z.to_nat (height g * width g)).

(** ** Capture resolution *)

(** The locals the neighbour scan of [go_find_captures] assigns:
    [opponent_color] (unassigned until an opponent's piece is met),
    [opponent_piece_list] and [empty_space_adjacent]. *)
Definition scanned : Type := option Color * list coord * bool.

Fixpoint scan_deltas (g : Goban) (color : Color) (row col : Z)
    (deltas : list coord) (acc : scanned) : outcome scanned :=
  match deltas with
  | [] => Ret acc
  | delta :: deltas =>
      let '(opponent_color, opponent_piece_list, empty_space_adjacent) := acc in
      let new_row := row + delta.1 in
      let new_col := col + delta.2 in
      if is_valid g new_row new_col then
        piece_at_loc ← getitem2 (board g) new_row new_col;
        match piece_at_loc with
        | Some p =>
            if negb (Color_eqb p color)
            then scan_deltas g color row col deltas
                   (Some p, opponent_piece_list ++ [(new_row, new_col)], empty_space_adjacent)
            else scan_deltas g color row col deltas acc
        | None =>
            scan_deltas g color row col deltas (opponent_color, opponent_piece_list, true)
        end
      else scan_deltas g color row col deltas acc
  end.

(** The [for opponent_piece in opponent_piece_list] loop.  [visit_table] is
    a local of [go_find_captures]: unassigned before the first round, and
    after the loop the table of the last round, with that round's marks. *)
Fixpoint check_opponents (g : Goban) (opponent_color : option Color)
    (pieces : list coord) (capture_list : list coord)
    (visit_table : option table) : outcome (list coord * option table) :=
  match pieces with
  | [] => Ret (capture_list, visit_table)
  | opponent_piece :: pieces =>
      let visit_table := grid false (height g) (width g) in
      match opponent_color with
      | None => Raise UnboundLocalError
      | Some oc =>
          '(found, visit_table) ←
            recurse_captures (recursion_budget g) g oc
              opponent_piece.1 opponent_piece.2 visit_table;
          match found with
          | None => Raise TypeError
          | Some found =>
              check_opponents g opponent_color pieces (capture_list ++ found)
                (Some visit_table)
          end
      end
  end.

Definition nonempty {A} (l : list A) : bool :=
  match l with [] => false | _ => true end.

Definition go_find_captures (g : Goban) (row col : Z)
  : outcome (option Color * list coord) :=
  here ← getitem2 (board g) row col;
  match here with
  | None => Ret (None, [])
  | Some color =>
      '(opponent_color, opponent_piece_list, empty_space_adjacent) ←
        scan_deltas g color row col SQUARE_DELTAS (None, [], false);
      if nonempty opponent_piece_list || negb empty_space_adjacent then
        '(capture_list, visit_table) ←
          check_opponents g opponent_color opponent_piece_list [] None;
        if nonempty capture_list then
          match opponent_color with
          | None => Raise UnboundLocalError
          | Some oc => Ret (Some oc, capture_list)
          end
        else
          match visit_table with
          | None => Raise UnboundLocalError
          | Some visit_table =>
              '(found, _) ←
                recurse_captures (recursion_budget g) g color row col visit_table;
              match found with
              | None => Raise TypeError
              | Some found =>
                  let capture_list := capture_list ++ found in
                  if nonempty capture_list then Ret (Some color, capture_list)
                  else Ret (None, [])
              end
          end
      else Ret (None, [])
  end.

(** ** The move engine *)

(** [for capture_row, capture_col in capture_list: board[..][..] = None] *)
Fixpoint clear_stones (b : list (list (option Color))) (capture_list : list coord)
  : outcome (list (list (option Color))) :=
  match capture_list with
  | [] => Ret b
  | (capture_row, capture_col) :: capture_list =>
      b ← setitem2 b capture_row capture_col None;
      clear_stones b capture_list
  end.

(** The 3-tuple of a valid play. *)
Definition play : Type := coord * option Color * list coord.

(** The piece is on the board and the last move recorded. *)
Definition placed (g : Goban) (color : Color) (row col : Z) : outcome Goban :=
  b ← setitem2 (board g) row col (Some color);
  Ret (mkGoban (width g) (height g) b (Some row) (Some col)).

(** [go_play] returns [None] for an invalid play and the 3-tuple for a valid
    one; the second component is the board the call leaves. *)
Definition go_play (g : Goban) (color : Color) (row col : Z)
  : outcome (option play * Goban) :=
  if negb (is_valid g row col) then Ret (None, g) else
  here ← getitem2 (board g) row col;
  match here with
  | Some _ => Ret (None, g)
  | None =>
      g ← placed g color row col;
      '(color_captured, capture_list) ← go_find_captures g row col;
      b ← match color_captured with
          | Some _ => clear_stones (board g) capture_list
          | None => Ret (board g)
          end;
      Ret (Some ((row, col), color_captured, capture_list), set_board g b)
  end.

(** A sequence of plays, each result dropped, as a caller that only keeps
    the board would make them. *)
Fixpoint play_all (moves : list (Color * coord)) (g : Goban) : outcome Goban :=
  match moves with
  | [] => Ret g
  | (color, (row, col)) :: moves =>
      '(_, g) ← go_play g color row col;
      play_all moves g
  end.

(** The board a new goban shows after [moves]. *)
Definition board_after (moves : list (Color * coord)) : Goban :=
  match play_all moves new_goban with
  | Ret g => g
  | _ => new_goban
  end.

(** The board with the stone just put on it, captures not yet resolved. *)
Definition with_stone (g : Goban) (color : Color) (row col : Z) : Goban :=
  match placed g color row col with
  | Ret g1 => g1
  | _ => g
  end.

(** The board a play leaves, whatever it returned. *)
Definition played (g : Goban) (color : Color) (row col : Z) : Goban :=
  match go_play g color row col with
  | Ret (_, g') => g'
  | _ => g
  end.

(** The result of a play with the reported colour swapped. *)
Definition flip_play (r : option play) : option play :=
  match r with
  | Some (pos, cc, cl) => Some (pos, opponent <$> cc, cl)
  | None => None
  end.

(** [f] on what the code returns; exceptions pass. *)
Definition outcome_map {A B} (f : A -> B) (o : outcome A) : outcome B :=
  match o with
  | Ret a => Ret (f a)
  | Raise e => Raise e
  | Diverge => Diverge
  end.

(** ** The printable board *)

(** The newline character, and [%d] and [%2d] of an integer. *)
Definition nl : string := String (Ascii.ascii_of_nat 10) EmptyString.
Definition str_of_int (n : Z) : string := NilZero.string_of_int (Z.to_int n).
Definition rjust (n : nat) (s : string) : string :=
  String.concat "" (replicate (n - String.length s) " ") +:+ s.

(** [[" " + LETTERS[i] for i in range(width)]] *)
Fixpoint column_letters (LETTERS : list string) (cols : list Z) : outcome (list string) :=
  match cols with
  | [] => Ret []
  | i :: cols =>
      letter ← getitem LETTERS i;
      rest ← column_letters LETTERS cols;
      Ret ((" " +:+ letter) :: rest)
  end.

(** The [for c in range(self.width)] loop of one row. *)
Fixpoint row_cells (g : Goban) (r : Z) (cols : list Z) (this_str : string)
  : outcome string :=
  match cols with
  | [] => Ret this_str
  | c :: cols =>
      let this_str :=
        if match last_row g, last_col g with
           | Some lr, Some lc => (r =? lr) && (c =? lc)
           | _, _ => false
           end
        then this_str +:+ "^5" else this_str in
      loc ← getitem2 (board g) r c;
      let this_str :=
        match loc with
        | Some WHITE => this_str +:+ "^Wo^~ "
        | Some BLACK => this_str +:+ "^Kx^~ "
        | None => this_str +:+ "^M.^~ "
        end in
      row_cells g r cols this_str
  end.

(** The [for r in range(self.height)] loop. *)
Fixpoint board_rows (g : Goban) (rows : list Z) (printable_board : list string)
  : outcome (list string) :=
  match rows with
  | [] => Ret printable_board
  | r :: rows =>
      this_str ← row_cells g r (seqZ 0 (width g)) (rjust 2 (str_of_int (r + 1)) +:+ " ^m|^~ ");
      let this_str := this_str +:+ "^m|^~ " +:+ str_of_int (r + 1) in
      board_rows g rows (printable_board ++ [this_str +:+ nl])
  end.

(** [update_printable_board]: the lines it stores in [printable_board]. *)
Definition update_printable_board (LETTERS : list string) (g : Goban)
  : outcome (list string) :=
  letters ← column_letters LETTERS (seqZ 0 (width g));
  let col_str := "    " +:+ String.concat "" letters in
  let rule := String.concat "" (py_repeat "==" (width g)) in
  let printable_board := [col_str +:+ nl; "   ^m.=" +:+ rule +:+ ".^~" +:+ nl] in
  printable_board ← board_rows g (seqZ 0 (height g)) printable_board;
  Ret (printable_board ++ ["   ^m`=" +:+ rule +:+ "'^~" +:+ nl; col_str +:+ nl]).

(** ** Reading the board *)

(** What the point [p] holds: [None] off the board, [Some None] for an empty
    point, [Some (Some c)] for a stone. *)
Definition cell_at (g : Goban) (p : coord) : option (option Color) :=
  if is_valid g p.1 p.2 then
    match getitem2 (board g) p.1 p.2 with
    | Ret x => Some x
    | _ => None
    end
  else None.

Definition neighbours (p : coord) : list coord :=
  (fun delta : coord => (p.1 + delta.1, p.2 + delta.2)) <$> SQUARE_DELTAS.

(** [in_group g c p q]: the stones at [p] and [q] are of colour [c] and a
    chain of orthogonally adjacent stones of colour [c] joins them. *)
Inductive in_group (g : Goban) (c : Color) (p : coord) : coord -> Prop :=
| group_root : cell_at g p = Some (Some c) -> in_group g c p p
| group_step q q' :
    in_group g c p q -> q' ∈ neighbours q -> cell_at g q' = Some (Some c) ->
    in_group g c p q'.

(** The group of the stone at [p] has a liberty: an empty point next to one
    of its stones. *)
Definition has_liberty (g : Goban) (p : coord) : Prop :=
  exists c q e, in_group g c p q /\ e ∈ neighbours q /\ cell_at g e = Some None.

(** A grid of [h] rows of [w] items. *)
Definition dims {A} (m : list (list A)) (h w : Z) : Prop :=
  length m = Z.to_nat h /\ Forall (fun row => length row = Z.to_nat w) m.

(** The grid has the size the board records. *)
Definition well_formed (g : Goban) : Prop :=
  dims (board g) (height g) (width g).

(** The boards a caller can get to from a new one. *)
Inductive reachable : Goban -> Prop :=
| reach_new : reachable new_goban
| reach_resize g w h : reachable g -> reachable (resize g w h)
| reach_invert g : reachable g -> reachable (invert g)
| reach_play g color row col r g' :
    reachable g -> go_play g color row col = Ret (r, g') -> reachable g'.

(** ** Measuring a traversal *)

(** The cell [p] is on the board and marked in the table. *)
Definition markedb (g : Goban) (vt : table) (p : coord) : bool :=
  is_valid g p.1 p.2 &&
  match getitem2 vt p.1 p.2 with Ret true => true | _ => false end.

(** Every coordinate of the board, row by row. *)
Definition cells (g : Goban) : list coord :=
  r ← seqZ 0 (height g); c ← seqZ 0 (width g); [(r, c)].

(** The number of cells a traversal holding [vt] may still mark. *)
Definition unvisited (g : Goban) (vt : table) : nat :=
  length (List.filter (fun p => negb (markedb g vt p)) (cells g)).

(** Every mark of [vt] is still in [vt']. *)
Definition grows (g : Goban) (vt vt' : table) : Prop :=
  forall q, markedb g vt q = true -> markedb g vt' q = true.

(** Marks sit on stones only. *)
Definition on_stones (g : Goban) (vt : table) : Prop :=
  forall q, markedb g vt q = true -> exists c, cell_at g q = Some (Some c).

(** The neighbour [q] of a visited stone is dealt with: it is not empty, and
    marked if it is a stone of the traced colour. *)
Definition settled (g : Goban) (c : Color) (vt : table) (q : coord) : Prop :=
  cell_at g q <> Some None /\ (cell_at g q = Some (Some c) -> markedb g vt q = true).

(** Around [p] no point is empty and every stone of colour [c] is marked. *)
Definition closed_at (g : Goban) (c : Color) (vt : table) (p : coord) : Prop :=
  forall q, q ∈ neighbours p -> settled g c vt q.

(** The loop invariant of a visit of the stone at [p], entered with table
    [vt0]: the marks are those of [vt0] and of the stones listed so far, the
    listed stones have the traced colour, and each of them but [p] has all
    its neighbours settled. *)
Definition listing (g : Goban) (c : Color) (p : coord) (vt0 vt : table)
    (l : list coord) : Prop :=
  (forall q, markedb g vt q = true <-> markedb g vt0 q = true \/ q ∈ l) /\
  (forall q, q ∈ l -> cell_at g q = Some (Some c)) /\
  (forall q, q ∈ l -> q <> p -> closed_at g c vt q).

(** What a call of [recurse_captures] at [p], entered with table [vt],
    establishes about its result and the table [vt'] it leaves. *)
Definition traced_ok (g : Goban) (c : Color) (vt : table) (p : coord)
    (res : option (list coord)) (vt' : table) : Prop :=
  dims vt' (height g) (width g) /\ grows g vt vt' /\
  (forall q, markedb g vt' q = true ->
     markedb g vt q = true \/ cell_at g q = Some (Some c)) /\
  match res with
  | None =>
      vt' = vt /\
      (cell_at g p = None \/ markedb g vt p = true \/
       cell_at g p = Some (Some (opponent c)))
  | Some l =>
      l <> [] ->
      p ∈ l /\
      (forall q, markedb g vt' q = true <-> markedb g vt q = true \/ q ∈ l) /\
      (forall q, q ∈ l -> cell_at g q = Some (Some c) /\ closed_at g c vt' q)
  end.

(** The recursive calls, as the induction on the budget provides them: with
    fewer unvisited cells than [fuel] frames a call returns, and [traced_ok]
    holds of what it returns. *)
Definition rec_ok (g : Goban) (c : Color)
    (rec : Z -> Z -> table -> outcome traced) (fuel : nat) : Prop :=
  forall vt row col,
    dims vt (height g) (width g) -> on_stones g vt -> (unvisited g vt < fuel)%nat ->
    exists res vt', rec row col vt = Ret (res, vt') /\
      traced_ok g c vt (row, col) res vt'.

(** ** What a traversal finds *)

(** The call at [q] met a liberty: [q] is empty, or a stone of colour [c]
    whose group has one. *)
Definition found_liberty (g : Goban) (c : Color) (q : coord) : Prop :=
  cell_at g q = Some None \/ (cell_at g q = Some (Some c) /\ has_liberty g q).

(** The result of a call at [p] entered with table [vt], read as an answer:
    an empty list reports a liberty, a list of stones names stones of the
    group of [p], each once, none of them marked before. *)
Definition exact_ok (g : Goban) (c : Color) (vt : table) (p : coord)
    (res : option (list coord)) : Prop :=
  match res with
  | None => True
  | Some [] => found_liberty g c p
  | Some l =>
      NoDup l /\
      forall s, s ∈ l -> in_group g c p s /\ markedb g vt s = false
  end.

Definition rec_exact (g : Goban) (c : Color)
    (rec : Z -> Z -> table -> outcome traced) (fuel : nat) : Prop :=
  forall vt row col res vt',
    dims vt (height g) (width g) -> on_stones g vt -> (unvisited g vt < fuel)%nat ->
    rec row col vt = Ret (res, vt') -> exact_ok g c vt (row, col) res.

(** An opponent's group next to the stone at [p] that is out of liberties. *)
Definition dead_neighbour (g : Goban) (c : Color) (p q : coord) : Prop :=
  q ∈ neighbours p /\ cell_at g q = Some (Some (opponent c)) /\ ~ has_liberty g q.

(** Every stone on the board belongs to a group with a liberty. *)
Definition all_alive (g : Goban) : Prop :=
  forall p c, cell_at g p = Some (Some c) -> has_liberty g p.

(** ** Subscripting lemmas *)

Lemma getitem_nonneg {A} (l : list A) (i : Z) :
  0 <= i ->
  getitem l i = match l !! Z.to_nat i with Some x => Ret x | None => Raise IndexError end.
Proof.
  intros Hi. unfold getitem, py_index.
  destruct (Z.leb_spec 0 i); [|lia].
  destruct (Z.ltb_spec i (Z.of_nat (length l))); [done|].
  rewrite lookup_ge_None_2; [done|lia].
Qed.

Lemma setitem_in {A} (l : list A) (i : Z) (x : A) :
  0 <= i < Z.of_nat (length l) -> setitem l i x = Ret (<[Z.to_nat i:=x]> l).
Proof.
  intros Hi. unfold setitem, py_index.
  destruct (Z.leb_spec 0 i); [|lia].
  destruct (Z.ltb_spec i (Z.of_nat (length l))); [done|lia].
Qed.

Lemma dims_row {A} (m : list (list A)) h w k row :
  dims m h w -> m !! k = Some row -> length row = Z.to_nat w.
Proof.
  intros [_ Hrows] Hk. rewrite Forall_forall in Hrows.
  apply Hrows, list_elem_of_lookup. eauto.
Qed.

Lemma getitem2_in {A} (m : list (list A)) h w r c :
  dims m h w -> 0 <= r < h -> 0 <= c < w -> exists x, getitem2 m r c = Ret x.
Proof.
  intros Hd Hr Hc. unfold getitem2.
  rewrite getitem_nonneg by lia.
  destruct (lookup_lt_is_Some_2 m (Z.to_nat r)) as [row Hrow]; [destruct Hd; lia|].
  rewrite Hrow. cbn. rewrite getitem_nonneg by lia.
  destruct (lookup_lt_is_Some_2 row (Z.to_nat c)) as [x Hx].
  { rewrite (dims_row _ _ _ _ _ Hd Hrow). lia. }
  rewrite Hx. eauto.
Qed.

(** [m[r][c] = x] inside the grid: the grid keeps its size, the cell reads
    [x] and every other cell reads as before. *)
Lemma setitem2_in {A} (m : list (list A)) h w r c (x : A) :
  dims m h w -> 0 <= r < h -> 0 <= c < w ->
  exists m', setitem2 m r c x = Ret m' /\ dims m' h w /\
    forall r' c', 0 <= r' -> 0 <= c' ->
      getitem2 m' r' c' = if decide ((r', c') = (r, c)) then Ret x else getitem2 m r' c'.
Proof.
  intros Hd Hr Hc. unfold setitem2.
  rewrite getitem_nonneg by lia.
  destruct (lookup_lt_is_Some_2 m (Z.to_nat r)) as [row Hrow]; [destruct Hd; lia|].
  rewrite Hrow. cbn.
  pose proof (dims_row _ _ _ _ _ Hd Hrow) as Hlen.
  rewrite setitem_in by lia. cbn.
  rewrite setitem_in by (destruct Hd; lia).
  eexists; split; [done|]. split.
  - destruct Hd as [Hh Hrows]. split; [by rewrite length_insert|].
    apply Forall_insert; [done|]. by rewrite length_insert.
  - intros r' c' Hr' Hc'. unfold getitem2.
    rewrite !(getitem_nonneg _ r') by lia.
    destruct (decide (Z.to_nat r' = Z.to_nat r)) as [Er|Er].
    + rewrite Er, list_lookup_insert_eq by (destruct Hd; lia).
      rewrite Hrow. cbn. rewrite !(getitem_nonneg _ c') by lia.
      destruct (decide (Z.to_nat c' = Z.to_nat c)) as [Ec|Ec].
      * rewrite Ec, list_lookup_insert_eq by lia.
        rewrite decide_True; [done|]. f_equal; lia.
      * rewrite list_lookup_insert_ne by done.
        rewrite decide_False; [done|]. intros [= ? ?]. lia.
    + rewrite list_lookup_insert_ne by done.
      rewrite decide_False; [done|]. intros [= ? ?]. lia.
Qed.

Lemma dims_grid {A} (x : A) h w : dims (grid x h w) h w.
Proof.
  unfold grid, py_repeat. split; [by rewrite length_replicate|].
  apply Forall_replicate. by rewrite length_replicate.
Qed.

Lemma getitem2_grid {A} (x : A) h w r c :
  0 <= r < h -> 0 <= c < w -> getitem2 (grid x h w) r c = Ret x.
Proof.
  intros Hr Hc. unfold getitem2, grid, py_repeat.
  rewrite getitem_nonneg by lia.
  rewrite lookup_replicate_2 by lia. cbn.
  rewrite getitem_nonneg by lia.
  by rewrite lookup_replicate_2 by lia.
Qed.

Lemma is_valid_spec g r c :
  is_valid g r c = true <-> 0 <= r < height g /\ 0 <= c < width g.
Proof. unfold is_valid. rewrite !andb_true_iff. lia. Qed.

Lemma cell_at_valid g p x :
  cell_at g p = Some x <->
  is_valid g p.1 p.2 = true /\ getitem2 (board g) p.1 p.2 = Ret x.
Proof.
  unfold cell_at. destruct (is_valid g p.1 p.2); [|split; [done|by intros [? _]]].
  destruct (getitem2 (board g) p.1 p.2); split; try done; try (by intros [_ ?]).
  - by intros [= ->].
  - by intros [_ [= ->]].
Qed.

Lemma cell_at_in g p :
  well_formed g -> is_valid g p.1 p.2 = true -> exists x, cell_at g p = Some x.
Proof.
  intros Hwf Hv. pose proof Hv as Hv'. apply is_valid_spec in Hv' as [Hr Hc].
  destruct (getitem2_in _ _ _ _ _ Hwf Hr Hc) as [x Hx].
  exists x. by apply cell_at_valid.
Qed.

(** ** Counting the cells left to visit *)

Lemma filter_length_mono {A} (f f' : A -> bool) (l : list A) :
  (forall x, f' x = true -> f x = true) ->
  (length (List.filter f' l) <= length (List.filter f l))%nat.
Proof.
  intros Hsub. induction l as [|a l IH]; cbn; [lia|].
  destruct (f' a) eqn:E'.
  - rewrite (Hsub _ E'). cbn. lia.
  - destruct (f a); cbn; lia.
Qed.

Lemma filter_length_lt {A} (f f' : A -> bool) (l : list A) (x : A) :
  (forall y, f' y = true -> f y = true) ->
  x ∈ l -> f x = true -> f' x = false ->
  (length (List.filter f' l) < length (List.filter f l))%nat.
Proof.
  intros Hsub Hx Hfx Hf'x. induction l as [|a l IH]; [by apply elem_of_nil in Hx|].
  cbn. apply elem_of_cons in Hx as [<-|Hx].
  - rewrite Hfx, Hf'x. cbn.
    pose proof (filter_length_mono f f' l Hsub). lia.
  - specialize (IH Hx). destruct (f' a) eqn:E'.
    + rewrite (Hsub _ E'). cbn. lia.
    + destruct (f a); cbn; lia.
Qed.

Lemma elem_of_cells g p : p ∈ cells g <-> is_valid g p.1 p.2 = true.
Proof.
  unfold cells. rewrite is_valid_spec, list_elem_of_bind. split.
  - intros (r & Hc & Hr). apply list_elem_of_bind in Hc as (c & Hp & Hc).
    apply list_elem_of_singleton in Hp as ->. cbn.
    apply elem_of_seqZ in Hr, Hc. lia.
  - intros [Hr Hc]. exists p.1. split; [|apply elem_of_seqZ; lia].
    apply list_elem_of_bind. exists p.2. split; [|apply elem_of_seqZ; lia].
    destruct p. apply list_elem_of_singleton. done.
Qed.

Lemma length_cells g :
  length (cells g) = (Z.to_nat (height g) * Z.to_nat (width g))%nat.
Proof.
  unfold cells. generalize (seqZ 0 (width g)) (length_seqZ 0 (width g)).
  intros cols <-. rewrite <- (length_seqZ 0 (height g)).
  induction (seqZ 0 (height g)) as [|r rows IH]; [done|].
  csimpl. rewrite length_app. cbn. f_equal; [|exact IH].
  clear. induction cols as [|c cols IH]; [done|]. csimpl. f_equal. exact IH.
Qed.

Lemma unvisited_budget g vt :
  (unvisited g vt < recursion_budget g)%nat.
Proof.
  unfold unvisited, recursion_budget.
  pose proof (List.filter_length_le (fun p => negb (markedb g vt p)) (cells g)) as Hle.
  rewrite length_cells in Hle.
  destruct (Z.le_gt_cases 0 (height g)), (Z.le_gt_cases 0 (width g)); [|lia..].
  rewrite Z2Nat.inj_mul by lia. lia.
Qed.

(** ** Marks *)

Lemma markedb_true g vt q :
  markedb g vt q = true <->
  is_valid g q.1 q.2 = true /\ getitem2 vt q.1 q.2 = Ret true.
Proof.
  unfold markedb. rewrite andb_true_iff.
  destruct (getitem2 vt q.1 q.2) as [[]| |]; split; intros [? ?]; done.
Qed.

Lemma markedb_grid g q : markedb g (grid false (height g) (width g)) q = false.
Proof.
  unfold markedb. destruct (is_valid g q.1 q.2) eqn:Hv; [|done].
  apply is_valid_spec in Hv as [Hr Hc]. by rewrite getitem2_grid.
Qed.

(** [visit_table[row][col] = True] on the board. *)
Lemma mark_cell g vt p :
  dims vt (height g) (width g) -> is_valid g p.1 p.2 = true ->
  exists vt', setitem2 vt p.1 p.2 true = Ret vt' /\
    dims vt' (height g) (width g) /\
    forall q, markedb g vt' q = true <-> markedb g vt q = true \/ q = p.
Proof.
  intros Hd Hv. pose proof Hv as Hv'. apply is_valid_spec in Hv' as [Hr Hc].
  destruct (setitem2_in vt _ _ _ _ true Hd Hr Hc) as (vt' & Hset & Hd' & Hget).
  exists vt'. split_and!; [done..|].
  intros q. rewrite !markedb_true. split.
  - intros [Hq Hm]. pose proof Hq as Hq'. apply is_valid_spec in Hq' as [Hqr Hqc].
    rewrite Hget in Hm by lia. destruct q, p; cbn in *.
    case_decide; [by right|by left].
  - intros [[Hq Hm]| ->]; (split; [done|]).
    + apply is_valid_spec in Hq as [Hqr Hqc]. rewrite Hget by lia.
      by case_decide.
    + rewrite Hget by lia. destruct p; cbn. by rewrite decide_True.
Qed.

Lemma unvisited_mono g vt vt' :
  grows g vt vt' -> (unvisited g vt' <= unvisited g vt)%nat.
Proof.
  intros Hg. apply filter_length_mono. intros q Hq.
  apply negb_true_iff in Hq. apply negb_true_iff.
  destruct (markedb g vt q) eqn:E; [|done]. apply Hg in E. congruence.
Qed.

Lemma unvisited_mark g vt vt' p :
  grows g vt vt' -> is_valid g p.1 p.2 = true ->
  markedb g vt p = false -> markedb g vt' p = true ->
  (unvisited g vt' < unvisited g vt)%nat.
Proof.
  intros Hg Hv Hp Hp'. apply filter_length_lt with (x := p).
  - intros q Hq. apply negb_true_iff in Hq. apply negb_true_iff.
    destruct (markedb g vt q) eqn:E; [|done]. apply Hg in E. congruence.
  - by apply elem_of_cells.
  - by rewrite Hp.
  - by rewrite Hp'.
Qed.

Lemma settled_grows g c vt vt' q :
  grows g vt vt' -> settled g c vt q -> settled g c vt' q.
Proof. intros Hg [He Hm]. split; [done|]. intros Hc. by apply Hg, Hm. Qed.

Lemma closed_at_grows g c vt vt' p :
  grows g vt vt' -> closed_at g c vt p -> closed_at g c vt' p.
Proof. intros Hg Hcl q Hq. eapply settled_grows; [done|]. by apply Hcl. Qed.

Lemma Color_eqb_eq a b : Color_eqb a b = true <-> a = b.
Proof. destruct a, b; cbn; split; congruence. Qed.

Lemma Color_eqb_opponent a b : Color_eqb a b = false <-> a = opponent b.
Proof. destruct a, b; cbn; split; congruence. Qed.

Lemma opponent_neq c : opponent c <> c.
Proof. by destruct c. Qed.

Lemma cell_at_off g p : is_valid g p.1 p.2 = false -> cell_at g p = None.
Proof. intros Hv. unfold cell_at. by rewrite Hv. Qed.

(** ** The traversal returns, and what it returns *)

Section Traversal.
Variable g : Goban.
Variable color : Color.
Hypothesis Hwf : well_formed g.

Local Abbreviation tdims vt := (dims vt (height g) (width g)).

Local Abbreviation rec_ok := (rec_ok g color).

Lemma grows_refl vt : grows g vt vt.
Proof. by intros q. Qed.

Lemma marks_refl vt q :
  markedb g vt q = true ->
  markedb g vt q = true \/ cell_at g q = Some (Some color).
Proof. by left. Qed.

Lemma traced_same vt p res :
  tdims vt ->
  match res with
  | None =>
      cell_at g p = None \/ markedb g vt p = true \/
      cell_at g p = Some (Some (opponent color))
  | Some l => l = []
  end ->
  traced_ok g color vt p res vt.
Proof.
  intros Hd Hres. split_and!; [done|apply grows_refl|apply marks_refl|].
  destruct res as [l|]; [by intros ?|done].
Qed.

Lemma on_stones_traced vt vt' :
  on_stones g vt ->
  (forall q, markedb g vt' q = true ->
     markedb g vt q = true \/ cell_at g q = Some (Some color)) ->
  on_stones g vt'.
Proof. intros Hs Hm q Hq. destruct (Hm q Hq); eauto. Qed.

Lemma recurse_deltas_ok rec fuel p vt0 :
  rec_ok rec fuel ->
  forall deltas return_list vt,
    tdims vt -> on_stones g vt -> (unvisited g vt < fuel)%nat ->
    listing g color p vt0 vt return_list -> p ∈ return_list ->
    exists l vt',
      recurse_deltas rec p.1 p.2 deltas return_list vt = Ret (Some l, vt') /\
      tdims vt' /\ grows g vt vt' /\
      (forall q, markedb g vt' q = true ->
         markedb g vt q = true \/ cell_at g q = Some (Some color)) /\
      (l <> [] ->
       listing g color p vt0 vt' l /\ p ∈ l /\
       forall d, d ∈ deltas -> settled g color vt' (p.1 + d.1, p.2 + d.2)).
Proof.
  intros Hrec. induction deltas as [|d deltas IH];
    intros rl vt Hd Hs Hfuel Hl Hp; cbn [recurse_deltas].
  { exists rl, vt. split_and!; [done|done|apply grows_refl|apply marks_refl|].
    intros _. split_and!; [done..|].
    intros d Hin. by apply elem_of_nil in Hin. }
  destruct (Hrec vt (p.1 + d.1) (p.2 + d.2) Hd Hs Hfuel)
    as (res & vt1 & -> & Hd1 & Hg1 & Hm1 & Hres).
  cbn. destruct res as [[|s found]|].
  - (* a liberty *)
    exists [], vt1. split_and!; [done..|]. by intros ?.
  - (* a sub-group without liberties *)
    destruct Hres as (Hroot & Hmarks & Hfound); [done|].
    destruct Hl as (Hl1 & Hl2 & Hl3).
    destruct (IH (rl ++ s :: found) vt1) as (l & vt' & Heq & Hd' & Hg' & Hm' & Hpost).
    + done.
    + by eapply on_stones_traced.
    + pose proof (unvisited_mono _ _ _ Hg1). lia.
    + split_and!.
      * intros q. rewrite Hmarks, Hl1, elem_of_app. tauto.
      * intros q [Hq|Hq]%elem_of_app; [by apply Hl2|by apply Hfound].
      * intros q [Hq|Hq]%elem_of_app Hne.
        -- eapply closed_at_grows; [done|]. by apply Hl3.
        -- by apply Hfound.
    + apply elem_of_app. by left.
    + exists l, vt'. split_and!; [done..| | |].
      * intros q Hq. by apply Hg', Hg1.
      * intros q Hq. destruct (Hm' q Hq) as [Hq1|?]; [|by right]. by apply Hm1.
      * intros Hne. destruct (Hpost Hne) as (? & ? & Hset). split_and!; [done..|].
        intros d' [->|Hin]%elem_of_cons; [|by apply Hset].
        eapply settled_grows; [done|]. split.
        -- destruct (Hfound _ Hroot) as [Hc _]. rewrite Hc. done.
        -- intros _. apply Hmarks. by right.
  - (* nothing that way *)
    destruct Hres as (-> & Hwhy).
    destruct (IH rl vt) as (l & vt' & Heq & Hd' & Hg' & Hm' & Hpost); [done..|].
    exists l, vt'. split_and!; [done..|].
    intros Hne. destruct (Hpost Hne) as (? & ? & Hset). split_and!; [done..|].
    intros d' [->|Hin]%elem_of_cons; [|by apply Hset].
    eapply settled_grows; [done|].
    destruct Hwhy as [Hoff|[Hmk|Hopp]].
    + split; [by rewrite Hoff|]. by rewrite Hoff.
    + split; [|done]. destruct (Hs _ Hmk) as [c Hc]. by rewrite Hc.
    + split; [by rewrite Hopp|]. rewrite Hopp. intros [= Heq'].
      by apply opponent_neq in Heq'.
Qed.

Lemma recurse_captures_ok fuel : rec_ok (recurse_captures fuel g color) fuel.
Proof.
  induction fuel as [|fuel IH]; intros vt row col Hd Hs Hfuel; [lia|].
  cbn [recurse_captures].
  destruct (is_valid g row col) eqn:Hv; cbn [negb].
  2:{ exists None, vt. split; [done|]. apply traced_same; [done|].
      left. by apply cell_at_off. }
  pose proof Hv as Hv'. apply is_valid_spec in Hv' as [Hr Hc].
  destruct (getitem2_in vt _ _ _ _ Hd Hr Hc) as [seen Hseen].
  rewrite Hseen. cbn. destruct seen.
  { exists None, vt. split; [done|]. apply traced_same; [done|].
    right; left. by apply markedb_true. }
  destruct (getitem2_in _ _ _ _ _ Hwf Hr Hc) as [here Hhere].
  rewrite Hhere. cbn.
  assert (cell_at g (row, col) = Some here) as Hcell by by apply cell_at_valid.
  destruct here as [c|].
  2:{ exists (Some []), vt. split; [done|]. by apply traced_same. }
  destruct (Color_eqb c color) eqn:Ec; cbn [negb].
  2:{ exists None, vt. split; [done|]. apply traced_same; [done|].
      right; right. apply Color_eqb_opponent in Ec. by rewrite Hcell, Ec. }
  apply Color_eqb_eq in Ec as ->.
  destruct (mark_cell g vt (row, col) Hd Hv) as (vt1 & Hset & Hd1 & Hmk1).
  cbn in Hset. rewrite Hset. cbn.
  assert (markedb g vt (row, col) = false) as Hunmarked.
  { unfold markedb. cbn. by rewrite Hseen, andb_false_r. }
  assert (grows g vt vt1) as Hg1 by (intros q Hq; apply Hmk1; by left).
  destruct (recurse_deltas_ok _ fuel (row, col) vt IH SQUARE_DELTAS [(row, col)] vt1)
    as (l & vt' & Heq & Hd' & Hg' & Hm' & Hpost).
  - done.
  - intros q [Hq| ->]%Hmk1; [by apply Hs|eauto].
  - assert (unvisited g vt1 < unvisited g vt)%nat; [|lia].
    apply unvisited_mark with (p := (row, col)); [done..|]. apply Hmk1. by right.
  - split_and!.
    + intros q. rewrite Hmk1, list_elem_of_singleton. tauto.
    + by intros q ->%list_elem_of_singleton.
    + by intros q ->%list_elem_of_singleton.
  - by apply list_elem_of_singleton.
  - cbn in Heq. exists (Some l), vt'. split; [done|]. split_and!; [done| | |].
    + intros q Hq. by apply Hg', Hg1.
    + intros q Hq. destruct (Hm' q Hq) as [[?| ->]%Hmk1|?]; auto.
    + intros Hne. destruct (Hpost Hne) as ((Hl1 & Hl2 & Hl3) & Hin & Hall).
      split_and!; [done..|]. intros q Hq. split; [by apply Hl2|].
      destruct (decide (q = (row, col))) as [->|Hq']; [|by apply Hl3].
      intros q' (d & -> & Hd'')%list_elem_of_fmap. by apply Hall.
Qed.
End Traversal.

(** ** Groups and liberties *)

Lemma in_group_root g c p q : in_group g c p q -> cell_at g p = Some (Some c).
Proof. by induction 1. Qed.

(** A list of stones of one colour around which no point is empty and every
    stone of that colour is listed holds whole groups, none with a liberty. *)
Lemma closed_no_liberty g c (l : list coord) s :
  (forall q, q ∈ l ->
     cell_at g q = Some (Some c) /\
     forall q', q' ∈ neighbours q ->
       cell_at g q' <> Some None /\ (cell_at g q' = Some (Some c) -> q' ∈ l)) ->
  s ∈ l -> ~ has_liberty g s.
Proof.
  intros Hcl Hs (c' & q & e & Hgrp & He & Hempty).
  assert (c' = c) as ->.
  { apply in_group_root in Hgrp. destruct (Hcl _ Hs) as [Hc _]. congruence. }
  assert (q ∈ l) as Hq.
  { clear He. induction Hgrp as [|q q' _ IH Hn Hc]; [done|].
    destruct (Hcl _ IH) as [_ Hnb]. by apply Hnb. }
  destruct (Hcl _ Hq) as [_ Hnb]. by destruct (Hnb _ He).
Qed.

(** A traversal with the full budget, entered with a table marked on stones
    of other colours only, returns; the stones it lists belong to groups
    without a liberty. *)
Lemma trace_group g color row col vt :
  well_formed g -> dims vt (height g) (width g) ->
  (forall q, markedb g vt q = true ->
     exists c, cell_at g q = Some (Some c) /\ c <> color) ->
  exists res vt',
    recurse_captures (recursion_budget g) g color row col vt = Ret (res, vt') /\
    traced_ok g color vt (row, col) res vt' /\
    forall l, res = Some l ->
      forall s, s ∈ l -> cell_at g s = Some (Some color) /\ ~ has_liberty g s.
Proof.
  intros Hwf Hd Hforeign.
  destruct (recurse_captures_ok g color Hwf (recursion_budget g) vt row col)
    as (res & vt' & Heq & Hok); [done| |apply unvisited_budget|].
  { intros q Hq. destruct (Hforeign q Hq) as (c & Hc & _). eauto. }
  exists res, vt'. split_and!; [done..|].
  intros l -> s Hs. destruct Hok as (_ & _ & _ & Hl).
  destruct Hl as (_ & Hmarks & Hclosed); [by intros ->; apply elem_of_nil in Hs|].
  split; [by apply Hclosed|].
  apply (closed_no_liberty g color l); [|done].
  intros q Hq. destruct (Hclosed q Hq) as [Hc Hcl]. split; [done|].
  intros q' Hq'. destruct (Hcl q' Hq') as [He Hm]. split; [done|].
  intros Hc'. destruct (proj1 (Hmarks q') (Hm Hc')) as [Hold|?]; [|done].
  destruct (Hforeign _ Hold) as (c & Hc'' & Hne). congruence.
Qed.

(** Met on a stone of the other colour, the traversal returns [None] and
    leaves the table alone. *)
Lemma recurse_captures_other fuel g color q vt :
  well_formed g -> dims vt (height g) (width g) ->
  cell_at g q = Some (Some (opponent color)) ->
  recurse_captures (S fuel) g color q.1 q.2 vt = Ret (None, vt).
Proof.
  intros Hwf Hd [Hv Hget]%cell_at_valid. cbn [recurse_captures].
  rewrite Hv. cbn [negb].
  pose proof Hv as [Hr Hc]%is_valid_spec.
  destruct (getitem2_in vt _ _ _ _ Hd Hr Hc) as [seen ->]. cbn.
  destruct seen; [done|]. rewrite Hget. cbn.
  by destruct color.
Qed.

(** ** Capture resolution *)

Lemma cell_at_cases g q :
  well_formed g ->
  is_valid g q.1 q.2 = false /\ cell_at g q = None \/
  exists x, is_valid g q.1 q.2 = true /\ getitem2 (board g) q.1 q.2 = Ret x /\
    cell_at g q = Some x.
Proof.
  intros Hwf. destruct (is_valid g q.1 q.2) eqn:Hv.
  - right. destruct (cell_at_in g q Hwf Hv) as [x Hx]. exists x.
    pose proof Hx as [_ ?]%cell_at_valid. done.
  - left. split; [done|]. by apply cell_at_off.
Qed.

(** The scan lists the neighbours that hold an opponent's stone, names their
    colour, and notes whether a neighbour is empty. *)
Lemma scan_deltas_ok g color row col :
  well_formed g ->
  forall deltas oc opl esa,
    (opl <> [] -> oc = Some (opponent color)) ->
    exists oc' opl' esa',
      scan_deltas g color row col deltas (oc, opl, esa) = Ret (oc', opl', esa') /\
      (opl' <> [] -> oc' = Some (opponent color)) /\
      (forall q, q ∈ opl' <->
         q ∈ opl \/
         q ∈ ((fun d : coord => (row + d.1, col + d.2)) <$> deltas) /\
         cell_at g q = Some (Some (opponent color))) /\
      (esa' = true <->
         esa = true \/
         exists q, q ∈ ((fun d : coord => (row + d.1, col + d.2)) <$> deltas) /\
           cell_at g q = Some None).
Proof.
  intros Hwf. induction deltas as [|d deltas IH]; intros oc opl esa Hoc.
  { exists oc, opl, esa. cbn. split_and!; [done..| |].
    - intros q. split; [by left|]. intros [?|[[]%elem_of_nil _]]. done.
    - split; [by left|]. intros [?|(q & []%elem_of_nil & _)]. done. }
  cbn [scan_deltas]. set (q := (row + d.1, col + d.2)).
  destruct (cell_at_cases g q Hwf) as [[Hv Hcell]|(x & Hv & Hget & Hcell)];
    cbn in Hv; rewrite Hv.
  - destruct (IH oc opl esa Hoc) as (oc' & opl' & esa' & -> & Hoc' & Hopl & Hesa).
    exists oc', opl', esa'. split_and!; [done..| |].
    + intros q'. rewrite Hopl, fmap_cons, elem_of_cons. fold q.
      split; [tauto|]. intros [?|[[->|?] Hc]]; [tauto| |tauto]. congruence.
    + rewrite Hesa, fmap_cons. fold q. split.
      * intros [?|(q' & ? & ?)]; [tauto|]. right. exists q'. by rewrite elem_of_cons; auto.
      * intros [?|(q' & [->|?]%elem_of_cons & Hc)]; [tauto|congruence|]. right. eauto.
  - cbn in Hget. rewrite Hget. cbn [mbind outcome_bind]. destruct x as [p|].
    + destruct (Color_eqb p color) eqn:Ep; cbn [negb].
      * apply Color_eqb_eq in Ep as ->.
        destruct (IH oc opl esa Hoc) as (oc' & opl' & esa' & -> & Hoc' & Hopl & Hesa).
        exists oc', opl', esa'. split_and!; [done..| |].
        -- intros q'. rewrite Hopl, fmap_cons, elem_of_cons. fold q.
           split; [tauto|]. intros [?|[[->|?] Hc]]; [tauto| |tauto].
           rewrite Hcell in Hc. injection Hc as Hc. by apply eq_sym, opponent_neq in Hc.
        -- rewrite Hesa, fmap_cons. fold q. split.
           ++ intros [?|(q' & ? & ?)]; [tauto|]. right. exists q'. by rewrite elem_of_cons; auto.
           ++ intros [?|(q' & [->|?]%elem_of_cons & Hc)]; [tauto|congruence|]. right. eauto.
      * apply Color_eqb_opponent in Ep as ->.
        destruct (IH (Some (opponent color)) (opl ++ [q]) esa)
          as (oc' & opl' & esa' & -> & Hoc' & Hopl & Hesa); [done|].
        exists oc', opl', esa'. split_and!; [done..| |].
        -- intros q'. rewrite Hopl, fmap_cons, elem_of_cons, elem_of_app,
             list_elem_of_singleton. fold q.
           split; [|tauto]. intros [[?| ->]|?]; [tauto| |tauto]. right. tauto.
        -- rewrite Hesa, fmap_cons. fold q. split.
           ++ intros [?|(q' & ? & ?)]; [tauto|]. right. exists q'. by rewrite elem_of_cons; auto.
           ++ intros [?|(q' & [->|?]%elem_of_cons & Hc)]; [tauto|congruence|]. right. eauto.
    + destruct (IH oc opl true Hoc) as (oc' & opl' & esa' & -> & Hoc' & Hopl & Hesa).
      exists oc', opl', esa'. split_and!; [done..| |].
      * intros q'. rewrite Hopl, fmap_cons, elem_of_cons. fold q.
        split; [tauto|]. intros [?|[[->|?] Hc]]; [tauto| |tauto]. congruence.
      * rewrite Hesa, fmap_cons. fold q. split.
        -- intros [?|(q' & ? & ?)].
           ++ right. exists q. by rewrite elem_of_cons; auto.
           ++ right. exists q'. by rewrite elem_of_cons; auto.
        -- intros _. by left.
Qed.

(** The table [go_find_captures] holds between two checks, if any: of the
    size of the board and marked on stones of colour [oc] only. *)
Lemma check_opponents_ok g oc :
  well_formed g ->
  forall pieces cl (vt_opt : option table),
    (forall q, q ∈ pieces -> cell_at g q = Some (Some oc)) ->
    (forall vt, vt_opt = Some vt ->
       dims vt (height g) (width g) /\
       forall q, markedb g vt q = true -> cell_at g q = Some (Some oc)) ->
    exists extra vt_opt',
      check_opponents g (Some oc) pieces cl vt_opt = Ret (cl ++ extra, vt_opt') /\
      (forall vt, vt_opt' = Some vt ->
         dims vt (height g) (width g) /\
         forall q, markedb g vt q = true -> cell_at g q = Some (Some oc)) /\
      (pieces <> [] -> is_Some vt_opt') /\
      (pieces = [] -> extra = [] /\ vt_opt' = vt_opt) /\
      (forall s, s ∈ extra -> cell_at g s = Some (Some oc) /\ ~ has_liberty g s) /\
      ((forall q, q ∈ pieces -> has_liberty g q) -> extra = []).
Proof.
  intros Hwf. induction pieces as [|q pieces IH]; intros cl vt_opt Hpieces Htable.
  { exists [], vt_opt. cbn. rewrite app_nil_r. split_and!; try done.
    intros s []%elem_of_nil. }
  cbn [check_opponents].
  destruct (trace_group g oc q.1 q.2 (grid false (height g) (width g)) Hwf)
    as (res & vt' & -> & Hok & Hlist).
  { apply dims_grid. }
  { intros x Hx. by rewrite markedb_grid in Hx. }
  cbn [mbind outcome_bind].
  assert (cell_at g q = Some (Some oc)) as Hq by (apply Hpieces; left).
  assert ((q.1, q.2) = q) as Eq by by destruct q.
  destruct Hok as (Hd' & _ & Hmarks & Hres). rewrite Eq in Hres.
  destruct res as [found|].
  2:{ exfalso. destruct Hres as (_ & [Hoff|[Hmk|Hopp]]).
      - congruence.
      - by rewrite markedb_grid in Hmk.
      - rewrite Hq in Hopp. injection Hopp as Hopp.
        by apply eq_sym, opponent_neq in Hopp. }
  destruct (IH (cl ++ found) (Some vt'))
    as (extra & vt_opt' & -> & Ht & Hsome & Hnil & Hex & Hlib).
  { intros x Hx. apply Hpieces. by right. }
  { intros vt [= <-]. split; [done|]. intros x Hx.
    destruct (Hmarks x Hx) as [Hold|?]; [|done]. by rewrite markedb_grid in Hold. }
  exists (found ++ extra), vt_opt'. rewrite <- app_assoc. split_and!; try done.
  - intros _. destruct pieces as [|q' pieces]; [|by apply Hsome].
    destruct Hnil as [_ ->]; eauto.
  - intros s [Hs|Hs]%elem_of_app; [by apply (Hlist found)|by apply Hex].
  - intros Hall. rewrite Hlib by (intros x Hx; apply Hall; by right).
    rewrite app_nil_r. destruct found as [|s found]; [done|]. exfalso.
    destruct Hres as (Hroot & _); [done|].
    destruct (Hlist _ eq_refl q) as [_ Hno]; [done|].
    apply Hno, Hall. by left.
Qed.

Lemma elem_of_neighbours p d : d ∈ SQUARE_DELTAS -> (p.1 + d.1, p.2 + d.2) ∈ neighbours p.
Proof.
  intros Hd. unfold neighbours.
  by apply (list_elem_of_fmap_2 (fun delta : coord => (p.1 + delta.1, p.2 + delta.2))).
Qed.

Lemma recurse_captures_S fuel g color row col visit_table :
  recurse_captures (S fuel) g color row col visit_table =
  if negb (is_valid g row col) then Ret (None, visit_table) else
  seen ← getitem2 visit_table row col;
  if seen : bool then Ret (None, visit_table) else
  here ← getitem2 (board g) row col;
  match here with
  | None => Ret (Some [], visit_table)
  | Some c =>
      if negb (Color_eqb c color) then Ret (None, visit_table) else
      visit_table ← setitem2 visit_table row col true;
      recurse_deltas (recurse_captures fuel g color) row col SQUARE_DELTAS
        [(row, col)] visit_table
  end.
Proof. done. Qed.

(** A stone with an opponent's stone on each of its four sides: the check of
    its own group lists that stone alone. *)
Lemma recurse_captures_lone g color p vt :
  well_formed g -> dims vt (height g) (width g) ->
  cell_at g p = Some (Some color) -> markedb g vt p = false ->
  (forall q, q ∈ neighbours p -> cell_at g q = Some (Some (opponent color))) ->
  exists vt',
    recurse_captures (recursion_budget g) g color p.1 p.2 vt = Ret (Some [p], vt').
Proof.
  intros Hwf Hd Hp Hun Hnb. pose proof Hp as [Hv Hget]%cell_at_valid.
  pose proof Hv as [Hr Hc]%is_valid_spec.
  assert (exists k, Z.to_nat (height g * width g) = S k) as [k Hk].
  { exists (Nat.pred (Z.to_nat (height g * width g))). nia. }
  unfold recursion_budget. rewrite Hk, recurse_captures_S.
  rewrite Hv. cbn [negb].
  destruct (getitem2_in vt _ _ _ _ Hd Hr Hc) as [seen Hseen].
  rewrite Hseen. cbn [mbind outcome_bind]. destruct seen.
  { exfalso. unfold markedb in Hun. by rewrite Hv, Hseen in Hun. }
  rewrite Hget. cbn [mbind outcome_bind].
  replace (Color_eqb color color) with true by by destruct color. cbn [negb].
  destruct (mark_cell g vt p Hd Hv) as (vt1 & -> & Hd1 & _).
  cbn [mbind outcome_bind]. exists vt1. unfold SQUARE_DELTAS.
  assert (forall d, d ∈ SQUARE_DELTAS ->
    recurse_captures (S k) g color (p.1 + d.1) (p.2 + d.2) vt1 = Ret (None, vt1)) as Hside.
  { intros d Hin.
    apply (recurse_captures_other k g color (p.1 + d.1, p.2 + d.2) vt1 Hwf Hd1).
    by apply Hnb, elem_of_neighbours. }
  cbn [recurse_deltas].
  rewrite (Hside (-1, 0)) by (unfold SQUARE_DELTAS; repeat constructor).
  cbn [mbind outcome_bind].
  rewrite (Hside (1, 0)) by (unfold SQUARE_DELTAS; repeat constructor).
  cbn [mbind outcome_bind].
  rewrite (Hside (0, -1)) by (unfold SQUARE_DELTAS; repeat constructor).
  cbn [mbind outcome_bind].
  rewrite (Hside (0, 1)) by (unfold SQUARE_DELTAS; repeat constructor).
  cbn [mbind outcome_bind]. by destruct p.
Qed.

(** [go_find_captures] on a stone of the board.  It raises
    [UnboundLocalError] exactly when no neighbour is empty or holds an
    opponent's stone; otherwise it returns, every stone it lists belongs to a
    group without a liberty, and a stone closed in by four opponent's stones
    that all keep a liberty is listed alone under its own colour. *)
Lemma go_find_captures_ok g color row col :
  well_formed g -> cell_at g (row, col) = Some (Some color) ->
  (go_find_captures g row col = Raise UnboundLocalError /\
   forall q, q ∈ neighbours (row, col) ->
     cell_at g q <> Some None /\ cell_at g q <> Some (Some (opponent color))) \/
  (exists cc cl,
     go_find_captures g row col = Ret (cc, cl) /\
     (exists q, q ∈ neighbours (row, col) /\
        (cell_at g q = Some None \/ cell_at g q = Some (Some (opponent color)))) /\
     (cc = None -> cl = []) /\
     (forall s, s ∈ cl ->
        (exists c, cell_at g s = Some (Some c)) /\ ~ has_liberty g s) /\
     ((forall q, q ∈ neighbours (row, col) ->
         cell_at g q = Some (Some (opponent color)) /\ has_liberty g q) ->
      cc = Some color /\ cl = [(row, col)])).
Proof.
  intros Hwf Hp. pose proof Hp as [Hv Hget]%cell_at_valid. cbn in Hv, Hget.
  unfold go_find_captures. rewrite Hget. cbn [mbind outcome_bind].
  destruct (scan_deltas_ok g color row col Hwf SQUARE_DELTAS None [] false)
    as (oc & opl & esa & -> & Hoc & Hopl & Hesa); [done|].
  cbn [mbind outcome_bind]. fold (neighbours (row, col)) in Hopl, Hesa.
  assert (forall q, q ∈ opl <->
    q ∈ neighbours (row, col) /\ cell_at g q = Some (Some (opponent color))) as Hopl'.
  { intros q. rewrite Hopl. split; [by intros [[]%elem_of_nil|?]|by right]. }
  assert (esa = true <->
    exists q, q ∈ neighbours (row, col) /\ cell_at g q = Some None) as Hesa'.
  { rewrite Hesa. split; [by intros [?|?]|by right]. }
  clear Hopl Hesa.
  destruct opl as [|q0 opl].
  - (* no opponent's piece nearby *)
    cbn [nonempty orb check_opponents]. destruct esa; cbn [negb].
    + right. exists None, []. split; [done|].
      destruct (proj1 Hesa' eq_refl) as (q & Hq & He).
      split_and!; [by exists q; auto|done|by intros s []%elem_of_nil|].
      intros Hall. destruct (Hall q Hq) as [Hc _]. congruence.
    + left. split; [done|]. intros q Hq. split.
      * intros He. assert (false = true) by (apply Hesa'; eauto). done.
      * intros Hc. assert (q ∈ []) as []%elem_of_nil. by apply Hopl'.
  - (* opponent's pieces to check *)
    right. rewrite Hoc by done. cbn [nonempty orb].
    destruct (check_opponents_ok g (opponent color) Hwf (q0 :: opl) [] (@None table))
      as (extra & vt_opt & -> & Ht & Hsome & _ & Hex & Hlib).
    { intros q Hq. by apply Hopl'. }
    { done. }
    cbn [mbind outcome_bind app].
    assert (exists q, q ∈ neighbours (row, col) /\
      (cell_at g q = Some None \/ cell_at g q = Some (Some (opponent color)))) as Hopen.
    { exists q0. destruct (proj1 (Hopl' q0)) as [? ?]; [by left|]. auto. }
    destruct extra as [|s extra]; cbn [nonempty].
    2:{ exists (Some (opponent color)), (s :: extra). split_and!; [done..| |].
        - intros x Hx. destruct (Hex x Hx). eauto.
        - intros Hall. discriminate Hlib. intros q Hq. by apply Hall, Hopl'. }
    destruct Hsome as [vt ->]; [done|]. destruct (Ht vt eq_refl) as [Hd Hmarks].
    destruct (trace_group g color row col vt Hwf Hd) as (res & vt' & Heq & Hok & Hlist).
    { intros q Hq. exists (opponent color). split; [by apply Hmarks|apply opponent_neq]. }
    assert (markedb g vt (row, col) = false) as Hun.
    { destruct (markedb g vt (row, col)) eqn:E; [|done]. apply Hmarks in E.
      rewrite Hp in E. injection E as E. by apply eq_sym, opponent_neq in E. }
    rewrite Heq. cbn [mbind outcome_bind].
    destruct Hok as (_ & _ & _ & Hres). destruct res as [found|].
    2:{ exfalso. destruct Hres as (_ & [Hoff|[Hmk|Hopp]]); [congruence..|].
        rewrite Hp in Hopp. injection Hopp as Hopp. by apply eq_sym, opponent_neq in Hopp. }
    cbn [app]. destruct found as [|s found]; cbn [nonempty].
    + exists None, []. split_and!; [done..|by intros s []%elem_of_nil|].
      intros Hall.
      destruct (recurse_captures_lone g color (row, col) vt Hwf Hd Hp Hun) as [vt'' Hlone].
      { intros q Hq. by apply Hall. }
      cbn [fst snd] in Hlone. rewrite Heq in Hlone. discriminate Hlone.
    + exists (Some color), (s :: found). split_and!; [done..| |].
      * intros x Hx. destruct (Hlist _ eq_refl x Hx). eauto.
      * intros Hall.
        destruct (recurse_captures_lone g color (row, col) vt Hwf Hd Hp Hun) as [vt'' Hlone].
        { intros q Hq. by apply Hall. }
        cbn [fst snd] in Hlone. rewrite Heq in Hlone. by injection Hlone as -> ->.
Qed.

(** ** The move engine *)

Lemma cell_at_set_board g b q :
  cell_at (set_board g b) q =
  if is_valid g q.1 q.2 then
    match getitem2 b q.1 q.2 with Ret x => Some x | _ => None end
  else None.
Proof. done. Qed.

Lemma placed_ok g color row col :
  well_formed g -> cell_at g (row, col) = Some None ->
  exists g1, placed g color row col = Ret g1 /\ well_formed g1 /\
    width g1 = width g /\ height g1 = height g /\
    last_row g1 = Some row /\ last_col g1 = Some col /\
    forall q, cell_at g1 q =
      if decide (q = (row, col)) then Some (Some color) else cell_at g q.
Proof.
  intros Hwf [Hv _]%cell_at_valid. cbn in Hv.
  pose proof Hv as [Hr Hc]%is_valid_spec.
  destruct (setitem2_in (board g) _ _ _ _ (Some color) Hwf Hr Hc) as (b & Hset & Hd & Hget).
  unfold placed. rewrite Hset. cbn [mbind outcome_bind].
  eexists. split; [done|]. split_and!; [done..|].
  intros q. unfold cell_at. cbn [board].
  change (is_valid (mkGoban (width g) (height g) b (Some row) (Some col)) q.1 q.2)
    with (is_valid g q.1 q.2).
  destruct (is_valid g q.1 q.2) eqn:Hq.
  - pose proof Hq as [Hqr Hqc]%is_valid_spec. rewrite Hget by lia.
    destruct q as [r c]. cbn [fst snd]. by repeat case_decide.
  - case_decide as Eq; [|done]. subst q. cbn in Hq. congruence.
Qed.

Lemma clear_stones_ok b h w (cl : list coord) :
  dims b h w ->
  (forall q, q ∈ cl -> 0 <= q.1 < h /\ 0 <= q.2 < w) ->
  exists b', clear_stones b cl = Ret b' /\ dims b' h w /\
    forall r c, 0 <= r -> 0 <= c ->
      getitem2 b' r c = if decide ((r, c) ∈ cl) then Ret None else getitem2 b r c.
Proof.
  revert b. induction cl as [|[r0 c0] cl IH]; intros b Hd Hin.
  { exists b. split_and!; [done..|]. intros r c _ _.
    rewrite decide_False; [done|]. by intros ?%elem_of_nil. }
  cbn [clear_stones].
  destruct (Hin (r0, c0)) as [Hr Hc]; [by left|]. cbn in Hr, Hc.
  destruct (setitem2_in b _ _ _ _ None Hd Hr Hc) as (b1 & -> & Hd1 & Hget1).
  cbn [mbind outcome_bind].
  destruct (IH b1 Hd1) as (b' & -> & Hd' & Hget'); [intros q Hq; apply Hin; by right|].
  exists b'. split_and!; [done..|]. intros r c Hr' Hc'.
  rewrite Hget', Hget1 by lia.
  destruct (decide ((r, c) ∈ cl)) as [Hcl|Hcl].
  - rewrite decide_True; [done|by right].
  - destruct (decide ((r, c) = (r0, c0))) as [->|Hne].
    + rewrite decide_True; [done|by left].
    + rewrite decide_False; [done|]. by intros [?|?]%elem_of_cons.
Qed.

(** [go_play] on a board of the recorded size: a play off the board or on a
    stone is refused and nothing changes; any other play places the stone
    and either leaves with the [UnboundLocalError] of [go_find_captures] or
    returns the 3-tuple, the listed stones removed when a colour is named. *)
Lemma go_play_ok g color row col :
  well_formed g ->
  (cell_at g (row, col) <> Some None /\ go_play g color row col = Ret (None, g)) \/
  (cell_at g (row, col) = Some None /\
   exists g1, placed g color row col = Ret g1 /\
     (go_find_captures g1 row col = Raise UnboundLocalError /\
      go_play g color row col = Raise UnboundLocalError \/
      exists cc cl g',
        go_find_captures g1 row col = Ret (cc, cl) /\
        go_play g color row col = Ret (Some ((row, col), cc, cl), g') /\
        well_formed g' /\
        width g' = width g /\ height g' = height g /\
        last_row g' = Some row /\ last_col g' = Some col /\
        (forall q, q ∈ cl -> cc <> None -> cell_at g' q = Some None) /\
        (forall q, q ∉ cl \/ cc = None -> cell_at g' q = cell_at g1 q))).
Proof.
  intros Hwf. unfold go_play.
  destruct (cell_at_cases g (row, col) Hwf) as [[Hv Hcell]|(x & Hv & Hget & Hcell)];
    cbn in Hv; rewrite Hv; cbn [negb].
  { left. by rewrite Hcell. }
  cbn in Hget. rewrite Hget. cbn [mbind outcome_bind]. destruct x as [c|].
  { left. by rewrite Hcell. }
  right. split; [done|].
  destruct (placed_ok g color row col Hwf Hcell)
    as (g1 & Hplaced & Hwf1 & Hw1 & Hh1 & Hlr & Hlc & Hcells).
  exists g1. split; [done|]. rewrite Hplaced. cbn [mbind outcome_bind].
  assert (cell_at g1 (row, col) = Some (Some color)) as Hstone.
  { rewrite Hcells. by rewrite decide_True. }
  destruct (go_find_captures_ok g1 color row col Hwf1 Hstone)
    as [[Hraise _]|(cc & cl & Hfind & _ & Hnone & Hlisted & _)].
  { left. by rewrite Hraise. }
  right. exists cc, cl. rewrite Hfind. cbn [mbind outcome_bind].
  destruct cc as [c|].
  - destruct (clear_stones_ok (board g1) (height g1) (width g1) cl Hwf1)
      as (b' & -> & Hd' & Hget').
    { intros q Hq. destruct (Hlisted q Hq) as [[c' [Hq' _]%cell_at_valid] _].
      by apply is_valid_spec. }
    cbn [mbind outcome_bind]. eexists. split_and!; [done..| |].
    + intros q Hq _. rewrite cell_at_set_board.
      destruct (Hlisted q Hq) as [[c' [Hq' _]%cell_at_valid] _]. rewrite Hq'.
      pose proof Hq' as [? ?]%is_valid_spec. rewrite Hget' by lia.
      rewrite decide_True; [done|by destruct q].
    + intros q [Hq|?]; [|done]. rewrite cell_at_set_board. unfold cell_at.
      destruct (is_valid g1 q.1 q.2) eqn:Hq'; [|done].
      pose proof Hq' as [? ?]%is_valid_spec. rewrite Hget' by lia.
      rewrite decide_False; [done|by destruct q].
  - cbn [mbind outcome_bind]. eexists. split_and!; [done..| |].
    + by intros q _ [].
    + intros q _. by destruct g1.
Qed.

Lemma well_formed_init_board g : well_formed (init_board g).
Proof. apply dims_grid. Qed.

Lemma well_formed_resize g w h : well_formed g -> well_formed (resize g w h).
Proof.
  intros Hwf. unfold resize.
  destruct (_ || _); [done|]. apply well_formed_init_board.
Qed.

Lemma well_formed_invert g : well_formed g -> well_formed (invert g).
Proof.
  intros [Hh Hrows]. split; cbn; [by rewrite length_map|].
  apply Forall_map. eapply Forall_impl; [done|]. intros row Hrow. cbn.
  by rewrite length_map.
Qed.

(** Every board a caller can reach has a grid of the size it records. *)
Lemma reachable_well_formed g : reachable g -> well_formed g.
Proof.
  induction 1 as [|g w h _ IH|g _ IH|g color row col r g' _ IH Hplay].
  - apply well_formed_init_board.
  - by apply well_formed_resize.
  - by apply well_formed_invert.
  - destruct (go_play_ok g color row col IH)
      as [[_ Heq]|(_ & g1 & _ & [[_ Heq]|(cc & cl & g'' & _ & Heq & Hwf & _)])];
      rewrite Heq in Hplay; [|done|]; by injection Hplay as <- <-.
Qed.

Lemma reachable_play_all moves g g' :
  reachable g -> play_all moves g = Ret g' -> reachable g'.
Proof.
  revert g. induction moves as [|[color [row col]] moves IH]; intros g Hg Hall.
  { by injection Hall as <-. }
  cbn [play_all] in Hall.
  destruct (go_play g color row col) as [[r g1]| |] eqn:Hplay; [|done..].
  cbn [mbind outcome_bind] in Hall.
  apply (IH g1); [|done]. by apply (reach_play g color row col r).
Qed.

(** A play raises exactly when it puts a stone on an empty point with no
    empty point and no opponent's stone around it; every other play
    returns, with the budget of the traversal never exhausted. *)
Lemma go_play_raises_iff g color row col :
  well_formed g ->
  (go_play g color row col = Raise UnboundLocalError <->
   cell_at g (row, col) = Some None /\
   forall q, q ∈ neighbours (row, col) ->
     cell_at g q <> Some None /\ cell_at g q <> Some (Some (opponent color))) /\
  (go_play g color row col = Raise UnboundLocalError \/
   exists r g', go_play g color row col = Ret (r, g') /\ well_formed g').
Proof.
  intros Hwf.
  destruct (go_play_ok g color row col Hwf) as [[Hne Heq]|(Hempty & g1 & Hplaced & Hrest)].
  { split; [|right; eauto]. rewrite Heq. split; [done|]. by intros [? _]. }
  destruct (placed_ok g color row col Hwf Hempty)
    as (g1' & Hplaced' & Hwf1 & _ & _ & _ & _ & Hcells).
  rewrite Hplaced in Hplaced'. injection Hplaced' as <-.
  assert (cell_at g1 (row, col) = Some (Some color)) as Hstone.
  { rewrite Hcells. by rewrite decide_True. }
  assert (forall q, q ∈ neighbours (row, col) -> cell_at g1 q = cell_at g q) as Hsame.
  { intros q Hq. rewrite Hcells. rewrite decide_False; [done|]. intros ->.
    unfold neighbours, SQUARE_DELTAS in Hq. cbn in Hq.
    repeat (apply elem_of_cons in Hq as [[= ? ?]|Hq]; [lia|]).
    by apply elem_of_nil in Hq. }
  destruct (go_find_captures_ok g1 color row col Hwf1 Hstone)
    as [[Hraise Hwalled]|(cc & cl & Hfind & (q & Hq & Hopen) & _)].
  - destruct Hrest as [[_ Heq]|(? & ? & ? & Hfind & _)]; [|congruence].
    split; [|by left]. split; [|done]. intros _. split; [done|].
    intros q Hq. rewrite <- Hsame by done. by apply Hwalled.
  - destruct Hrest as [[Hraise _]|(? & ? & g' & _ & Heq & Hwf' & _)]; [congruence|].
    split; [|right; eauto]. rewrite Heq. split; [done|]. intros [_ Hwalled].
    destruct (Hwalled q Hq) as [? ?]. rewrite <- Hsame in * by done.
    by destruct Hopen.
Qed.

(** ** Resizing and inverting *)

Lemma resize_in_range g w h :
  MIN_SIZE <= w <= MAX_SIZE -> MIN_SIZE <= h <= MAX_SIZE ->
  resize g w h = mkGoban w h (grid None h w) (last_row g) (last_col g).
Proof.
  intros Hw Hh. unfold resize.
  destruct (Z.ltb_spec w MIN_SIZE); [lia|].
  destruct (Z.ltb_spec h MIN_SIZE); [lia|].
  rewrite !Z.gtb_ltb.
  destruct (Z.ltb_spec MAX_SIZE w); [lia|].
  destruct (Z.ltb_spec MAX_SIZE h); [lia|]. done.
Qed.

Lemma resize_out_of_range g w h :
  ~ (MIN_SIZE <= w <= MAX_SIZE /\ MIN_SIZE <= h <= MAX_SIZE) -> resize g w h = g.
Proof.
  intros Hout. unfold resize.
  rewrite !Z.gtb_ltb.
  destruct (Z.ltb_spec w MIN_SIZE); [done|].
  destruct (Z.ltb_spec MAX_SIZE w); [done|].
  destruct (Z.ltb_spec h MIN_SIZE); [done|].
  destruct (Z.ltb_spec MAX_SIZE h); [done|]. lia.
Qed.

Lemma lookup_map {A B} (f : A -> B) (l : list A) (i : nat) :
  map f l !! i = f <$> l !! i.
Proof. revert i. induction l as [|a l IH]; intros [|i]; cbn; auto. Qed.

Lemma getitem_map {A B} (f : A -> B) (l : list A) (i : Z) :
  getitem (map f l) i =
  match getitem l i with
  | Ret x => Ret (f x)
  | Raise e => Raise e
  | Diverge => Diverge
  end.
Proof.
  unfold getitem. rewrite length_map.
  destruct (py_index (length l) i) as [k|]; [|done].
  rewrite lookup_map. by destruct (l !! k).
Qed.

Lemma getitem2_map {A B} (f : A -> B) (m : list (list A)) (r c : Z) :
  getitem2 (map (map f) m) r c =
  match getitem2 m r c with
  | Ret x => Ret (f x)
  | Raise e => Raise e
  | Diverge => Diverge
  end.
Proof.
  unfold getitem2. rewrite (getitem_map (map f)).
  destruct (getitem m r) as [row| |]; [|done..].
  cbn [mbind outcome_bind]. apply getitem_map.
Qed.

Lemma invert_cell_involutive c : invert_cell (invert_cell c) = c.
Proof. by destruct c as [[]|]. Qed.

(** * The claims *)

(** C1.  A play on a reachable board is claimed to return always, also when
    the stone lands among the board's edge and stones of its own colour.
    It does not: after Black at (0,1) and (1,0) on a new board, Black at
    (0,0) has no empty and no opponent's neighbour, no visitation table was
    ever built, and the check of the stone's own group raises
    [UnboundLocalError] ([go_play_raises_iff] gives all such plays). *)
Theorem go_play_walled_in_raises :
  exists g,
    play_all [(BLACK, (0, 1)); (BLACK, (1, 0))] new_goban = Ret g /\
    reachable g /\
    cell_at g (0, 0) = Some None /\
    go_play g BLACK 0 0 = Raise UnboundLocalError.
Proof.
  eexists. split; [vm_compute; reflexivity|].
  split; [|split; vm_compute; reflexivity].
  apply (reachable_play_all [(BLACK, (0, 1)); (BLACK, (1, 0))] new_goban);
    [apply reach_new|vm_compute; reflexivity].
Qed.

(** C2.  A play off the board, or on a point that holds a stone of either
    colour, returns [None] and leaves the board as it was: every cell, the
    size and the last move. *)
Theorem go_play_refused_unchanged g color row col :
  is_valid g row col = false \/ (exists c, cell_at g (row, col) = Some (Some c)) ->
  go_play g color row col = Ret (None, g).
Proof.
  intros [Hoff|[c [Hv Hget]%cell_at_valid]]; unfold go_play.
  - by rewrite Hoff.
  - cbn in Hv, Hget. by rewrite Hv, Hget.
Qed.

Lemma go_play_refused_unchanged_witness :
  go_play new_goban BLACK 19 0 = Ret (None, new_goban) /\
  go_play (board_after [(WHITE, (1, 1))]) BLACK 1 1 =
    Ret (None, board_after [(WHITE, (1, 1))]).
Proof.
  split.
  - apply (go_play_refused_unchanged new_goban BLACK 19 0). left. reflexivity.
  - apply (go_play_refused_unchanged (board_after [(WHITE, (1, 1))]) BLACK 1 1).
    right. exists WHITE. vm_compute. reflexivity.
Defined.

(** C3.  On an accepted play, a stone whose group has a liberty on the board
    with the played stone on it is neither listed as captured nor removed. *)
Theorem captured_stones_have_no_liberty g color row col g1 cc cl g' :
  well_formed g ->
  placed g color row col = Ret g1 ->
  go_play g color row col = Ret (Some ((row, col), cc, cl), g') ->
  forall s,
    s ∈ cl \/ ((exists c, cell_at g1 s = Some (Some c)) /\ cell_at g' s = Some None) ->
    ~ has_liberty g1 s.
Proof.
  intros Hwf Hplaced Hplay s Hs.
  destruct (go_play_ok g color row col Hwf) as [[_ Heq]|(Hempty & g1' & Hplaced' & Hrest)].
  { rewrite Heq in Hplay. discriminate Hplay. }
  rewrite Hplaced in Hplaced'. injection Hplaced' as <-.
  destruct Hrest as [[_ Heq]|(cc' & cl' & g'' & Hfind & Heq & _ & _ & _ & _ & _ & _ & Hkept)].
  { rewrite Heq in Hplay. discriminate Hplay. }
  rewrite Heq in Hplay. injection Hplay as -> -> ->.
  destruct (placed_ok g color row col Hwf Hempty)
    as (g1' & Hplaced' & Hwf1 & _ & _ & _ & _ & Hcells).
  rewrite Hplaced in Hplaced'. injection Hplaced' as <-.
  assert (cell_at g1 (row, col) = Some (Some color)) as Hstone.
  { rewrite Hcells. by rewrite decide_True. }
  destruct (go_find_captures_ok g1 color row col Hwf1 Hstone)
    as [[Hraise _]|(cc' & cl' & Hfind' & _ & _ & Hlisted & _)]; [congruence|].
  rewrite Hfind in Hfind'. injection Hfind' as <- <-.
  assert (s ∈ cl) as Hin.
  { destruct Hs as [?|[[c Hc] Hgone]]; [done|].
    destruct (decide (s ∈ cl)) as [?|Hout]; [done|].
    rewrite Hkept in Hgone by by left. congruence. }
  by apply Hlisted.
Qed.

Lemma captured_stones_have_no_liberty_witness :
  ~ has_liberty
      (with_stone
         (board_after [(WHITE, (1, 1)); (BLACK, (0, 1)); (BLACK, (1, 0)); (BLACK, (1, 2))])
         BLACK 2 1)
      (1, 1).
Proof.
  eapply (captured_stones_have_no_liberty
            (board_after [(WHITE, (1, 1)); (BLACK, (0, 1)); (BLACK, (1, 0)); (BLACK, (1, 2))])
            BLACK 2 1 _ (Some WHITE) [(1, 1)] _).
  - split; vm_compute; [reflexivity|repeat constructor].
  - vm_compute. reflexivity.
  - vm_compute. reflexivity.
  - left. apply list_elem_of_here.
Defined.

(** C4.  On a new 19x19 board, after White at (1,1) and Black at (0,1),
    (1,0) and (1,2), Black at (2,1) is accepted and reports White captured
    with the list [(1,1)]; afterwards (1,1) is empty and the four Black
    stones are on the board. *)
Theorem single_stone_capture :
  exists g g',
    play_all [(WHITE, (1, 1)); (BLACK, (0, 1)); (BLACK, (1, 0)); (BLACK, (1, 2))]
      new_goban = Ret g /\
    go_play g BLACK 2 1 = Ret (Some ((2, 1), Some WHITE, [(1, 1)]), g') /\
    cell_at g' (1, 1) = Some None /\
    cell_at g' (0, 1) = Some (Some BLACK) /\
    cell_at g' (1, 0) = Some (Some BLACK) /\
    cell_at g' (1, 2) = Some (Some BLACK) /\
    cell_at g' (2, 1) = Some (Some BLACK).
Proof.
  eexists. eexists. split; [vm_compute; reflexivity|].
  split; [vm_compute; reflexivity|].
  repeat split; vm_compute; reflexivity.
Qed.

(** C5.  A stone played on an empty point whose four neighbours hold
    opponent's stones, each in a group that keeps a liberty once the stone
    is down, is accepted, reported as a capture of the mover's own colour
    with the played point listed, and the point is empty afterwards. *)
Theorem suicide_reported g color row col :
  well_formed g ->
  cell_at g (row, col) = Some None ->
  (forall q, q ∈ neighbours (row, col) ->
     cell_at g q = Some (Some (opponent color)) /\
     has_liberty (with_stone g color row col) q) ->
  exists g',
    go_play g color row col = Ret (Some ((row, col), Some color, [(row, col)]), g') /\
    cell_at g' (row, col) = Some None.
Proof.
  intros Hwf Hempty Hnb.
  destruct (placed_ok g color row col Hwf Hempty)
    as (g1 & Hplaced & Hwf1 & _ & _ & _ & _ & Hcells).
  unfold with_stone in Hnb. rewrite Hplaced in Hnb.
  assert (cell_at g1 (row, col) = Some (Some color)) as Hstone.
  { rewrite Hcells. by rewrite decide_True. }
  assert (forall q, q ∈ neighbours (row, col) ->
    cell_at g1 q = Some (Some (opponent color)) /\ has_liberty g1 q) as Hnb1.
  { intros q Hq. destruct (Hnb q Hq) as [Hc Hl]. split; [|done].
    rewrite Hcells. rewrite decide_False; [done|]. intros ->. congruence. }
  destruct (go_find_captures_ok g1 color row col Hwf1 Hstone)
    as [[_ Hwalled]|(cc & cl & Hfind & _ & _ & _ & Hsuicide)].
  { exfalso. assert ((row + -1, col + 0) ∈ neighbours (row, col)) as Hq by left.
    destruct (Hwalled _ Hq) as [_ Hno]. by destruct (Hnb1 _ Hq). }
  destruct (Hsuicide Hnb1) as [-> ->].
  destruct (go_play_ok g color row col Hwf) as [[Hne _]|(_ & g1' & Hplaced' & Hrest)]; [done|].
  rewrite Hplaced in Hplaced'. injection Hplaced' as <-.
  destruct Hrest as [[Hraise _]|(cc & cl & g' & Hfind' & Heq & _ & _ & _ & _ & _ & Hgone & _)];
    [congruence|].
  rewrite Hfind in Hfind'. injection Hfind' as <- <-.
  exists g'. split; [done|]. apply Hgone; [by left|done].
Qed.

Lemma suicide_reported_witness :
  exists g',
    go_play
      (board_after [(WHITE, (0, 1)); (WHITE, (1, 0)); (WHITE, (1, 2)); (WHITE, (2, 1))])
      BLACK 1 1 = Ret (Some ((1, 1), Some BLACK, [(1, 1)]), g') /\
    cell_at g' (1, 1) = Some None.
Proof.
  apply (suicide_reported
           (board_after [(WHITE, (0, 1)); (WHITE, (1, 0)); (WHITE, (1, 2)); (WHITE, (2, 1))])
           BLACK 1 1).
  - split; vm_compute; [reflexivity|repeat constructor].
  - vm_compute. reflexivity.
  - intros q Hq. unfold neighbours, SQUARE_DELTAS in Hq. cbn in Hq.
    repeat (apply elem_of_cons in Hq as [->|Hq]).
    + split; [vm_compute; reflexivity|]. exists WHITE, (0, 1), (0, 0).
      split_and!; [apply group_root|right; right; left|]; vm_compute; reflexivity.
    + split; [vm_compute; reflexivity|]. exists WHITE, (2, 1), (3, 1).
      split_and!; [apply group_root|right; left|]; vm_compute; reflexivity.
    + split; [vm_compute; reflexivity|]. exists WHITE, (1, 0), (0, 0).
      split_and!; [apply group_root|left|]; vm_compute; reflexivity.
    + split; [vm_compute; reflexivity|]. exists WHITE, (1, 2), (0, 2).
      split_and!; [apply group_root|left|]; vm_compute; reflexivity.
    + by apply elem_of_nil in Hq.
Defined.

(** C6.  The check of the played stone's own group is claimed to start from
    a freshly zeroed visitation table.  It starts from whatever table the
    checks of the opponent's pieces left: with White at (1,1) and Black
    played at (0,1), the scan finds the one opponent's piece (1,1), its
    check captures nothing and leaves (1,1) marked, and the own-group check
    that follows is entered with that marked table. *)
Theorem own_group_check_table_not_fresh :
  exists g1 vt,
    placed (board_after [(WHITE, (1, 1))]) BLACK 0 1 = Ret g1 /\
    scan_deltas g1 BLACK 0 1 SQUARE_DELTAS (None, [], false) =
      Ret (Some WHITE, [(1, 1)], true) /\
    check_opponents g1 (Some WHITE) [(1, 1)] [] None = Ret ([], Some vt) /\
    getitem2 vt 1 1 = Ret true /\
    vt <> grid false (height g1) (width g1).
Proof.
  eexists. eexists. split; [vm_compute; reflexivity|].
  split; [vm_compute; reflexivity|].
  split; [vm_compute; reflexivity|].
  split; [vm_compute; reflexivity|].
  vm_compute. discriminate.
Qed.

(** C7.  The list of captured stones is claimed to hold each coordinate at
    most once.  A White group of three stones that touches the played point
    on two sides is traced once from each side: Black at (0,0) against White
    at (0,1), (1,1), (1,0) returns a list of six entries, every stone
    twice. *)
Theorem captured_list_repeats_stones :
  exists g g',
    play_all [(WHITE, (0, 1)); (WHITE, (1, 1)); (WHITE, (1, 0));
              (BLACK, (0, 2)); (BLACK, (1, 2)); (BLACK, (2, 1)); (BLACK, (2, 0))]
      new_goban = Ret g /\
    reachable g /\
    go_play g BLACK 0 0 =
      Ret (Some ((0, 0), Some WHITE,
                 [(1, 0); (1, 1); (0, 1); (0, 1); (1, 1); (1, 0)]), g') /\
    ~ NoDup [(1, 0); (1, 1); (0, 1); (0, 1); (1, 1); (1, 0) : coord].
Proof.
  eexists. eexists. split; [vm_compute; reflexivity|]. split.
  { apply (reachable_play_all
             [(WHITE, (0, 1)); (WHITE, (1, 1)); (WHITE, (1, 0));
              (BLACK, (0, 2)); (BLACK, (1, 2)); (BLACK, (2, 1)); (BLACK, (2, 0))]
             new_goban); [apply reach_new|vm_compute; reflexivity]. }
  split; [vm_compute; reflexivity|].
  intros Hnd. apply NoDup_cons in Hnd as [Hnotin _]. apply Hnotin.
  do 4 right. left.
Qed.

(** C8.  [resize] with both sizes in [3, 26] installs an empty board of the
    new size; with a size outside it changes nothing. *)
Theorem resize_spec g w h :
  (MIN_SIZE <= w <= MAX_SIZE /\ MIN_SIZE <= h <= MAX_SIZE ->
   width (resize g w h) = w /\ height (resize g w h) = h /\
   well_formed (resize g w h) /\
   forall row col, cell_at (resize g w h) (row, col) =
     if is_valid (resize g w h) row col then Some None else None) /\
  (~ (MIN_SIZE <= w <= MAX_SIZE /\ MIN_SIZE <= h <= MAX_SIZE) ->
   resize g w h = g).
Proof.
  split; [|apply resize_out_of_range].
  intros [Hw Hh]. split_and!.
  - by rewrite resize_in_range.
  - by rewrite resize_in_range.
  - rewrite resize_in_range by done. apply dims_grid.
  - intros row col. rewrite resize_in_range by done. unfold cell_at. cbn [fst snd board].
    destruct (is_valid _ row col) eqn:Hv; [|done].
    apply is_valid_spec in Hv as [? ?]. cbn [height width] in *.
    by rewrite getitem2_grid.
Qed.

Lemma resize_spec_witness :
  (width (resize new_goban 9 13) = 9 /\ height (resize new_goban 9 13) = 13 /\
   well_formed (resize new_goban 9 13) /\
   forall row col, cell_at (resize new_goban 9 13) (row, col) =
     if is_valid (resize new_goban 9 13) row col then Some None else None) /\
  resize (board_after [(BLACK, (3, 3))]) 27 9 = board_after [(BLACK, (3, 3))].
Proof.
  split.
  - apply (proj1 (resize_spec new_goban 9 13)). unfold MIN_SIZE, MAX_SIZE. lia.
  - apply (proj2 (resize_spec (board_after [(BLACK, (3, 3))]) 27 9)).
    unfold MIN_SIZE, MAX_SIZE. lia.
Defined.

(** C9 as stated fails: a successful [resize] is claimed to unset the last
    move, but after Black at (3,3) a resize to 9x9 still records (3,3). *)
Lemma resize_last_move_counterexample :
  last_row (board_after [(BLACK, (3, 3))]) = Some 3 /\
  last_col (board_after [(BLACK, (3, 3))]) = Some 3 /\
  MIN_SIZE <= 9 <= MAX_SIZE /\
  ~ (last_row (resize (board_after [(BLACK, (3, 3))]) 9 9) = None /\
     last_col (resize (board_after [(BLACK, (3, 3))]) 9 9) = None).
Proof.
  split; [vm_compute; reflexivity|]. split; [vm_compute; reflexivity|].
  split; [unfold MIN_SIZE, MAX_SIZE; lia|].
  intros [Hrow _]. vm_compute in Hrow. discriminate Hrow.
Qed.

(** C9, amended.  A successful [resize] discards all stones and leaves the
    last move as it was recorded. *)
Theorem resize_keeps_last_move g w h :
  MIN_SIZE <= w <= MAX_SIZE -> MIN_SIZE <= h <= MAX_SIZE ->
  last_row (resize g w h) = last_row g /\
  last_col (resize g w h) = last_col g /\
  board (resize g w h) = grid None h w.
Proof. intros Hw Hh. by rewrite resize_in_range. Qed.

Lemma resize_keeps_last_move_witness :
  last_row (resize (board_after [(BLACK, (3, 3))]) 9 9) =
    last_row (board_after [(BLACK, (3, 3))]) /\
  last_col (resize (board_after [(BLACK, (3, 3))]) 9 9) =
    last_col (board_after [(BLACK, (3, 3))]) /\
  board (resize (board_after [(BLACK, (3, 3))]) 9 9) = grid None 9 9.
Proof.
  apply (resize_keeps_last_move (board_after [(BLACK, (3, 3))]) 9 9);
    unfold MIN_SIZE, MAX_SIZE; lia.
Defined.

(** C10.  [invert] turns every Black stone White and every White stone
    Black, leaves empty points empty and the size alone; applied twice it
    gives the board back. *)
Theorem invert_spec g :
  width (invert g) = width g /\ height (invert g) = height g /\
  (forall q, cell_at (invert g) q =
     match cell_at g q with
     | Some (Some BLACK) => Some (Some WHITE)
     | Some (Some WHITE) => Some (Some BLACK)
     | Some None => Some None
     | None => None
     end) /\
  (forall q, cell_at (invert (invert g)) q = cell_at g q) /\
  invert (invert g) = g.
Proof.
  assert (invert (invert g) = g) as Hinv.
  { unfold invert, set_board. cbn. rewrite map_map.
    rewrite (map_ext _ id), map_id; [by destruct g|].
    intros row. rewrite map_map. rewrite (map_ext _ id), map_id; [done|].
    apply invert_cell_involutive. }
  split_and!; [done..| | |done].
  - intros q. unfold invert. rewrite cell_at_set_board. unfold cell_at.
    destruct (is_valid g q.1 q.2); [|done].
    rewrite getitem2_map. by destruct (getitem2 (board g) q.1 q.2) as [[[]|]| |].
  - intros q. by rewrite Hinv.
Qed.

(** * Further properties of the engine *)

(** ** The traversal lists the group, and only reports liberties it has *)

Lemma in_group_trans g c p q r :
  in_group g c p q -> in_group g c q r -> in_group g c p r.
Proof.
  intros Hpq Hqr. induction Hqr as [|r r' _ IH Hn Hc]; [done|].
  by apply (group_step g c p r r').
Qed.

Lemma in_group_colour g c p q : in_group g c p q -> cell_at g q = Some (Some c).
Proof. by destruct 1. Qed.

Lemma has_liberty_step g c p q :
  cell_at g p = Some (Some c) -> q ∈ neighbours p ->
  cell_at g q = Some (Some c) -> has_liberty g q -> has_liberty g p.
Proof.
  intros Hp Hq Hc (c' & t & e & Hgrp & He & Hempty).
  assert (c' = c) as -> by (apply in_group_root in Hgrp; congruence).
  exists c, t, e. split_and!; [|done..].
  apply (in_group_trans g c p q t); [|done].
  apply (group_step g c p p q); [by apply group_root|done..].
Qed.

Lemma closed_group_subset g c (l : list coord) p s :
  (forall q, q ∈ l -> forall q', q' ∈ neighbours q ->
     cell_at g q' = Some (Some c) -> q' ∈ l) ->
  p ∈ l -> in_group g c p s -> s ∈ l.
Proof.
  intros Hcl Hp Hgrp. induction Hgrp as [|q q' _ IH Hn Hc]; [done|].
  by apply (Hcl q).
Qed.

Section Exact.
Variable g : Goban.
Variable color : Color.
Hypothesis Hwf : well_formed g.

Lemma recurse_deltas_exact rec fuel p vt0 :
  rec_ok g color rec fuel -> rec_exact g color rec fuel ->
  cell_at g p = Some (Some color) ->
  forall deltas return_list vt l vt',
    (forall d, d ∈ deltas -> d ∈ SQUARE_DELTAS) ->
    dims vt (height g) (width g) -> on_stones g vt -> (unvisited g vt < fuel)%nat ->
    grows g vt0 vt -> return_list <> [] -> NoDup return_list ->
    (forall s, s ∈ return_list ->
       in_group g color p s /\ markedb g vt0 s = false /\ markedb g vt s = true) ->
    recurse_deltas rec p.1 p.2 deltas return_list vt = Ret (Some l, vt') ->
    match l with
    | [] => has_liberty g p
    | _ =>
        NoDup l /\
        forall s, s ∈ l -> in_group g color p s /\ markedb g vt0 s = false
    end.
Proof.
  intros Hrec Hexact Hp. induction deltas as [|d deltas IH];
    intros rl vt l vt' Hsub Hd Hs Hfuel Hg0 Hne Hnd Hrl Heq; cbn [recurse_deltas] in Heq.
  { injection Heq as <- <-. destruct rl as [|s rl]; [done|].
    split; [done|]. intros x Hx. destruct (Hrl x Hx) as (? & ? & _). done. }
  assert ((p.1 + d.1, p.2 + d.2) ∈ neighbours p) as Hnb.
  { apply elem_of_neighbours, Hsub. by left. }
  destruct (Hrec vt (p.1 + d.1) (p.2 + d.2) Hd Hs Hfuel)
    as (res & vt1 & Heq1 & Hd1 & Hg1 & Hm1 & Hres).
  pose proof (Hexact vt _ _ res vt1 Hd Hs Hfuel Heq1) as Hex.
  rewrite Heq1 in Heq. cbn [mbind outcome_bind] in Heq.
  destruct res as [[|s found]|].
  - (* a liberty that way *)
    injection Heq as <- <-. destruct Hex as [Hempty|[Hc Hlib]].
    + exists color, p, (p.1 + d.1, p.2 + d.2). split_and!; [by apply group_root|done..].
    + by apply (has_liberty_step g color p (p.1 + d.1, p.2 + d.2)).
  - (* more stones of the group *)
    destruct Hres as (Hroot & Hmarks & Hfound); [done|].
    destruct Hex as [Hndf Hgrp].
    assert (in_group g color p (p.1 + d.1, p.2 + d.2)) as Hside.
    { apply (group_step g color p p); [by apply group_root|done|].
      by destruct (Hfound _ Hroot). }
    apply (IH (rl ++ s :: found) vt1 l vt'); try done.
    + intros d' Hd'. apply Hsub. by right.
    + by eapply on_stones_traced.
    + pose proof (unvisited_mono _ _ _ Hg1). lia.
    + intros x Hx. by apply Hg1, Hg0.
    + by destruct rl.
    + apply NoDup_app. split_and!; [done| |done].
      intros x Hx Hx'. destruct (Hrl x Hx) as (_ & _ & Hmk).
      destruct (Hgrp x Hx') as [_ Hun]. congruence.
    + intros x [Hx|Hx]%elem_of_app.
      * destruct (Hrl x Hx) as (? & ? & ?). split_and!; [done..|]. by apply Hg1.
      * destruct (Hgrp x Hx) as [Hin Hun]. split_and!.
        -- by apply (in_group_trans g color p (p.1 + d.1, p.2 + d.2)).
        -- destruct (markedb g vt0 x) eqn:E; [|done]. apply Hg0 in E. congruence.
        -- apply Hmarks. by right.
  - (* nothing that way *)
    destruct Hres as (-> & _).
    apply (IH rl vt l vt'); try done.
    intros d' Hd'. apply Hsub. by right.
Qed.

Lemma recurse_captures_exact fuel :
  rec_exact g color (recurse_captures fuel g color) fuel.
Proof.
  induction fuel as [|fuel IH]; intros vt row col res vt' Hd Hs Hfuel Heq; [lia|].
  rewrite recurse_captures_S in Heq.
  destruct (is_valid g row col) eqn:Hv; cbn [negb] in Heq.
  2:{ by injection Heq as <- <-. }
  pose proof Hv as [Hr Hc]%is_valid_spec.
  destruct (getitem2_in vt _ _ _ _ Hd Hr Hc) as [seen Hseen].
  rewrite Hseen in Heq. cbn [mbind outcome_bind] in Heq. destruct seen.
  { by injection Heq as <- <-. }
  destruct (getitem2_in _ _ _ _ _ Hwf Hr Hc) as [here Hhere].
  rewrite Hhere in Heq. cbn [mbind outcome_bind] in Heq.
  assert (cell_at g (row, col) = Some here) as Hcell by by apply cell_at_valid.
  destruct here as [c|].
  2:{ injection Heq as <- <-. by left. }
  destruct (Color_eqb c color) eqn:Ec; cbn [negb] in Heq.
  2:{ by injection Heq as <- <-. }
  apply Color_eqb_eq in Ec as ->.
  destruct (mark_cell g vt (row, col) Hd Hv) as (vt1 & Hset & Hd1 & Hmk1).
  cbn [fst snd] in Hset. rewrite Hset in Heq. cbn [mbind outcome_bind] in Heq.
  assert (markedb g vt (row, col) = false) as Hunmarked.
  { unfold markedb. cbn. by rewrite Hseen, andb_false_r. }
  assert (grows g vt vt1) as Hg1 by (intros q Hq; apply Hmk1; by left).
  assert (on_stones g vt1) as Hs1.
  { intros q [Hq| ->]%Hmk1; [by apply Hs|eauto]. }
  assert (unvisited g vt1 < fuel)%nat as Hfuel1.
  { assert (unvisited g vt1 < unvisited g vt)%nat; [|lia].
    apply unvisited_mark with (p := (row, col)); [done..|]. apply Hmk1. by right. }
  assert (listing g color (row, col) vt vt1 [(row, col)]) as Hlisting.
  { split_and!.
    - intros q. rewrite Hmk1, list_elem_of_singleton. tauto.
    - by intros q ->%list_elem_of_singleton.
    - by intros q ->%list_elem_of_singleton. }
  pose proof (recurse_captures_ok g color Hwf fuel) as Hrec.
  destruct (recurse_deltas_ok g color _ fuel (row, col) vt Hrec
              SQUARE_DELTAS [(row, col)] vt1 Hd1 Hs1 Hfuel1 Hlisting)
    as (l & vt'' & Heq' & _).
  { by apply list_elem_of_singleton. }
  cbn [fst snd] in Heq'. rewrite Heq' in Heq. injection Heq as <- <-.
  pose proof (recurse_deltas_exact _ fuel (row, col) vt Hrec IH Hcell
                SQUARE_DELTAS [(row, col)] vt1 l vt'') as Hloop.
  cbn [fst snd] in Hloop.
  assert (match l with
          | [] => has_liberty g (row, col)
          | _ => NoDup l /\
              forall s, s ∈ l ->
                in_group g color (row, col) s /\ markedb g vt s = false
          end) as Hl.
  { apply Hloop; try done.
    - apply NoDup_singleton.
    - intros s ->%list_elem_of_singleton. split_and!; [by apply group_root|done|].
      apply Hmk1. by right. }
  destruct l as [|s l]; [by right|done].
Qed.
End Exact.

(** A check of the group of the stone at [p], entered with a table marked
    on stones of other colours only: it answers [[]] when the group has a
    liberty, and else lists the stones of the group, each once. *)
Lemma trace_exact g color p vt :
  well_formed g -> dims vt (height g) (width g) ->
  (forall q, markedb g vt q = true ->
     exists c, cell_at g q = Some (Some c) /\ c <> color) ->
  cell_at g p = Some (Some color) ->
  exists l vt',
    recurse_captures (recursion_budget g) g color p.1 p.2 vt = Ret (Some l, vt') /\
    dims vt' (height g) (width g) /\
    (forall q, markedb g vt' q = true ->
       markedb g vt q = true \/ cell_at g q = Some (Some color)) /\
    (l = [] /\ has_liberty g p \/
     l <> [] /\ ~ has_liberty g p /\ NoDup l /\
     forall s, s ∈ l <-> in_group g color p s).
Proof.
  intros Hwf Hd Hforeign Hp.
  assert ((p.1, p.2) = p) as Ep by by destruct p.
  assert (on_stones g vt) as Hs.
  { intros q Hq. destruct (Hforeign q Hq) as (c & Hc & _). eauto. }
  destruct (recurse_captures_ok g color Hwf (recursion_budget g) vt p.1 p.2 Hd Hs)
    as (res & vt' & Heq & Hok); [apply unvisited_budget|].
  pose proof (recurse_captures_exact g color Hwf (recursion_budget g) vt p.1 p.2 res vt'
                Hd Hs (unvisited_budget g vt) Heq) as Hex.
  rewrite Ep in Hok, Hex. destruct Hok as (Hd' & _ & Hm' & Hres).
  destruct res as [l|].
  2:{ exfalso. destruct Hres as (_ & [Hoff|[Hmk|Hopp]]).
      - congruence.
      - destruct (Hforeign _ Hmk) as (c & Hc & Hne). congruence.
      - rewrite Hp in Hopp. injection Hopp as Hopp. by apply eq_sym, opponent_neq in Hopp. }
  exists l, vt'. split_and!; [done..|].
  destruct l as [|s l].
  { left. split; [done|]. destruct Hex as [Hempty|[_ ?]]; [congruence|done]. }
  right. destruct Hres as (Hroot & Hmarks & Hclosed); [done|].
  destruct Hex as [Hnd Hgrp].
  assert (forall q, q ∈ s :: l -> forall q', q' ∈ neighbours q ->
            cell_at g q' = Some (Some color) -> q' ∈ s :: l) as Hcl.
  { intros q Hq q' Hq' Hc'. destruct (Hclosed q Hq) as [_ Hcq].
    destruct (Hcq q' Hq') as [_ Hm].
    destruct (proj1 (Hmarks q') (Hm Hc')) as [Hold|?]; [|done].
    destruct (Hforeign _ Hold) as (c & Hc'' & Hne). congruence. }
  split_and!; [done| |done|].
  - apply (closed_no_liberty g color (s :: l)); [|done].
    intros q Hq. destruct (Hclosed q Hq) as [Hc Hcq]. split; [done|].
    intros q' Hq'. destruct (Hcq q' Hq') as [He _]. split; [done|]. by apply (Hcl q).
  - intros x. split; [by intros Hx; apply Hgrp|].
    by apply closed_group_subset.
Qed.

(** The checks of the opponent's pieces, as a set: the stones gathered are
    those of the groups of the pieces that are out of liberties. *)
Lemma check_opponents_exact g oc :
  well_formed g ->
  forall pieces cl (vt_opt : option table),
    (forall q, q ∈ pieces -> cell_at g q = Some (Some oc)) ->
    exists extra vt_opt',
      check_opponents g (Some oc) pieces cl vt_opt = Ret (cl ++ extra, vt_opt') /\
      forall s, s ∈ extra <->
        exists q, q ∈ pieces /\ ~ has_liberty g q /\ in_group g oc q s.
Proof.
  intros Hwf. induction pieces as [|q pieces IH]; intros cl vt_opt Hpieces.
  { exists [], vt_opt. cbn. rewrite app_nil_r. split; [done|].
    intros s. split; [by intros ?%elem_of_nil|]. by intros (q & ?%elem_of_nil & _). }
  cbn [check_opponents].
  destruct (trace_exact g oc q (grid false (height g) (width g)) Hwf)
    as (found & vt' & -> & _ & _ & Hfound).
  { apply dims_grid. }
  { intros x Hx. by rewrite markedb_grid in Hx. }
  { apply Hpieces. by left. }
  cbn [mbind outcome_bind].
  destruct (IH (cl ++ found) (Some vt')) as (extra & vt_opt' & -> & Hextra).
  { intros x Hx. apply Hpieces. by right. }
  exists (found ++ extra), vt_opt'. rewrite <- app_assoc. split; [done|].
  intros s. rewrite elem_of_app, Hextra. split.
  - intros [Hs|(q' & Hq' & Hdead & Hgrp)].
    + destruct Hfound as [[-> _]|(_ & Hdead & _ & Hiff)]; [by apply elem_of_nil in Hs|].
      exists q. split_and!; [by left|done|by apply Hiff].
    + exists q'. split_and!; [by right|done..].
  - intros (q' & [->|Hq']%elem_of_cons & Hdead & Hgrp).
    + left. destruct Hfound as [[_ ?]|(_ & _ & _ & Hiff)]; [done|]. by apply Hiff.
    + right. eauto.
Qed.

(** [go_find_captures] on a stone of the board, when it returns: dead
    opponent's groups next to the stone are what it lists, under the
    opponent's colour; with none, the stone's own group if that is out of
    liberties, under its own colour; and else nothing. *)
Lemma go_find_captures_exact g color row col cc cl :
  well_formed g -> cell_at g (row, col) = Some (Some color) ->
  go_find_captures g row col = Ret (cc, cl) ->
  ((exists q, dead_neighbour g color (row, col) q) ->
   cc = Some (opponent color) /\
   forall s, s ∈ cl <->
     exists q, dead_neighbour g color (row, col) q /\ in_group g (opponent color) q s) /\
  ((forall q, ~ dead_neighbour g color (row, col) q) ->
   ~ has_liberty g (row, col) ->
   cc = Some color /\ NoDup cl /\
   forall s, s ∈ cl <-> in_group g color (row, col) s) /\
  ((forall q, ~ dead_neighbour g color (row, col) q) ->
   has_liberty g (row, col) -> cc = None /\ cl = []).
Proof.
  intros Hwf Hp Hfind. pose proof Hp as [Hv Hget]%cell_at_valid. cbn in Hv, Hget.
  unfold go_find_captures in Hfind. rewrite Hget in Hfind.
  cbn [mbind outcome_bind] in Hfind.
  destruct (scan_deltas_ok g color row col Hwf SQUARE_DELTAS None [] false)
    as (oc & opl & esa & Hscan & Hoc & Hopl & Hesa); [done|].
  rewrite Hscan in Hfind. cbn [mbind outcome_bind] in Hfind.
  fold (neighbours (row, col)) in Hopl, Hesa.
  assert (forall q, q ∈ opl <->
    q ∈ neighbours (row, col) /\ cell_at g q = Some (Some (opponent color))) as Hopl'.
  { intros q. rewrite Hopl. split; [by intros [[]%elem_of_nil|?]|by right]. }
  assert (esa = true <->
    exists q, q ∈ neighbours (row, col) /\ cell_at g q = Some None) as Hesa'.
  { rewrite Hesa. split; [by intros [?|?]|by right]. }
  clear Hopl Hesa Hscan.
  assert (forall q, dead_neighbour g color (row, col) q <-> q ∈ opl /\ ~ has_liberty g q)
    as Hdead.
  { intros q. unfold dead_neighbour. rewrite Hopl'. tauto. }
  destruct opl as [|q0 opl].
  - (* no opponent's piece nearby *)
    cbn [nonempty orb check_opponents] in Hfind. destruct esa; cbn [negb] in Hfind; [|done].
    injection Hfind as <- <-.
    destruct (proj1 Hesa' eq_refl) as (e & He & Hempty).
    assert (has_liberty g (row, col)) as Hlib.
    { exists color, (row, col), e. split_and!; [by apply group_root|done..]. }
    split_and!; [|done..].
    intros (q & [[]%elem_of_nil _]%Hdead).
  - (* opponent's pieces to check *)
    rewrite Hoc in Hfind by done. cbn [nonempty orb] in Hfind.
    destruct (check_opponents_ok g (opponent color) Hwf (q0 :: opl) [] (@None table))
      as (extra & vt_opt & Hchk & Ht & Hsome & _).
    { intros q Hq. by apply Hopl'. }
    { done. }
    destruct (check_opponents_exact g (opponent color) Hwf (q0 :: opl) [] (@None table))
      as (extra' & vt_opt' & Hchk' & Hextra).
    { intros q Hq. by apply Hopl'. }
    rewrite Hchk in Hchk'. injection Hchk' as <- <-.
    rewrite Hchk in Hfind. cbn [mbind outcome_bind app] in Hfind.
    assert (forall s, s ∈ extra <->
      exists q, dead_neighbour g color (row, col) q /\
        in_group g (opponent color) q s) as Hextra'.
    { intros s. rewrite Hextra. split; intros (q & Hq & Hrest); exists q.
      - split; [apply Hdead|]; tauto.
      - apply Hdead in Hq. tauto. }
    destruct extra as [|s extra]; cbn [nonempty] in Hfind.
    2:{ injection Hfind as <- <-. split_and!; [done| |].
        - intros Hnone _. exfalso.
          destruct (proj1 (Hextra' s)) as (q & Hq & _); [by left|]. by apply (Hnone q).
        - intros Hnone _. exfalso.
          destruct (proj1 (Hextra' s)) as (q & Hq & _); [by left|]. by apply (Hnone q). }
    assert (forall q, ~ dead_neighbour g color (row, col) q) as Hnone.
    { intros q Hq. assert (q ∈ []) as []%elem_of_nil.
      apply Hextra'. exists q. split; [done|]. apply group_root. by destruct Hq as (_ & ? & _). }
    destruct Hsome as [vt ->]; [done|]. destruct (Ht vt eq_refl) as [Hd Hmarks].
    destruct (trace_exact g color (row, col) vt Hwf Hd) as (l & vt' & Heq & _ & _ & Hl).
    { intros q Hq. exists (opponent color). split; [by apply Hmarks|apply opponent_neq]. }
    { done. }
    cbn [fst snd] in Heq. rewrite Heq in Hfind. cbn [mbind outcome_bind app] in Hfind.
    destruct Hl as [[-> Hlib]|(Hne & Hnolib & Hnd & Hiff)].
    + injection Hfind as <- <-. split_and!; [|done..].
      intros [q Hq]. by destruct (Hnone q).
    + destruct l as [|s l]; [done|]. cbn [nonempty] in Hfind. injection Hfind as <- <-.
      split_and!; [|done..].
      intros [q Hq]. by destruct (Hnone q).
Qed.

(** The colour [go_find_captures] names is that of every stone it lists, and
    it names one exactly when it lists a stone. *)
Lemma go_find_captures_colour g color row col cc cl :
  well_formed g -> cell_at g (row, col) = Some (Some color) ->
  go_find_captures g row col = Ret (cc, cl) ->
  (cc = None <-> cl = []) /\
  forall c, cc = Some c ->
    (c = color \/ c = opponent color) /\
    forall s, s ∈ cl -> cell_at g s = Some (Some c).
Proof.
  intros Hwf Hp Hfind. pose proof Hp as [Hv Hget]%cell_at_valid. cbn in Hv, Hget.
  unfold go_find_captures in Hfind. rewrite Hget in Hfind.
  cbn [mbind outcome_bind] in Hfind.
  destruct (scan_deltas_ok g color row col Hwf SQUARE_DELTAS None [] false)
    as (oc & opl & esa & Hscan & Hoc & Hopl & _); [done|].
  rewrite Hscan in Hfind. cbn [mbind outcome_bind] in Hfind.
  destruct opl as [|q0 opl].
  - cbn [nonempty orb check_opponents] in Hfind. destruct esa; cbn [negb] in Hfind; [|done].
    by injection Hfind as <- <-.
  - rewrite Hoc in Hfind by done. cbn [nonempty orb] in Hfind.
    destruct (check_opponents_ok g (opponent color) Hwf (q0 :: opl) [] (@None table))
      as (extra & vt_opt & Hchk & Ht & Hsome & _ & Hex & _).
    { intros q Hq. apply Hopl in Hq as [Hq|[_ ?]]; [by apply elem_of_nil in Hq|done]. }
    { done. }
    rewrite Hchk in Hfind. cbn [mbind outcome_bind app] in Hfind.
    destruct extra as [|s extra]; cbn [nonempty] in Hfind.
    2:{ injection Hfind as <- <-. split; [done|]. intros c [= <-]. split; [by right|].
        intros x Hx. by destruct (Hex x Hx). }
    destruct Hsome as [vt ->]; [done|]. destruct (Ht vt eq_refl) as [Hd Hmarks].
    destruct (trace_group g color row col vt Hwf Hd) as (res & vt' & Heq & Hok & Hlist).
    { intros q Hq. exists (opponent color). split; [by apply Hmarks|apply opponent_neq]. }
    rewrite Heq in Hfind. cbn [mbind outcome_bind] in Hfind.
    destruct res as [[|s found]|]; [| |done]; cbn [app nonempty] in Hfind;
      injection Hfind as <- <-; [done|].
    split; [done|]. intros c [= <-]. split; [by left|].
    intros x Hx. by destruct (Hlist _ eq_refl x Hx).
Qed.

(** An accepted play, taken apart: the point was empty, the stone went on
    it, [go_find_captures] ran on the board with the stone and returned the
    colour and the list reported, and the listed stones are what left the
    board. *)
Lemma go_play_accepted g color row col pos cc cl g' :
  well_formed g ->
  go_play g color row col = Ret (Some (pos, cc, cl), g') ->
  pos = (row, col) /\ cell_at g (row, col) = Some None /\
  well_formed (with_stone g color row col) /\
  (forall q, cell_at (with_stone g color row col) q =
     if decide (q = (row, col)) then Some (Some color) else cell_at g q) /\
  go_find_captures (with_stone g color row col) row col = Ret (cc, cl) /\
  well_formed g' /\ width g' = width g /\ height g' = height g /\
  last_row g' = Some row /\ last_col g' = Some col /\
  forall q, cell_at g' q =
    if decide (q ∈ cl) then Some None else cell_at (with_stone g color row col) q.
Proof.
  intros Hwf Hplay.
  destruct (go_play_ok g color row col Hwf) as [[_ Heq]|(Hempty & g1 & Hplaced & Hrest)].
  { rewrite Heq in Hplay. discriminate Hplay. }
  destruct Hrest as [[_ Heq]|(cc' & cl' & g'' & Hfind & Heq & Hwf' & Hw & Hh & Hlr & Hlc & Hgone & Hkept)].
  { rewrite Heq in Hplay. discriminate Hplay. }
  rewrite Heq in Hplay. injection Hplay as <- <- <- <-.
  destruct (placed_ok g color row col Hwf Hempty)
    as (g1' & Hplaced' & Hwf1 & _ & _ & _ & _ & Hcells).
  rewrite Hplaced in Hplaced'. injection Hplaced' as <-.
  unfold with_stone. rewrite Hplaced.
  assert (cell_at g1 (row, col) = Some (Some color)) as Hstone.
  { rewrite Hcells. by rewrite decide_True. }
  destruct (go_find_captures_colour g1 color row col cc' cl' Hwf1 Hstone Hfind)
    as [Hnone _].
  split_and!; [done..|]. intros q. case_decide as Hq.
  - apply Hgone; [done|]. intros Hcc. apply Hnone in Hcc. subst cl'.
    by apply elem_of_nil in Hq.
  - apply Hkept. by left.
Qed.

(** ** What a play does *)

(** Splits a hypothesis [q ∈ neighbours (r, c)] on a concrete point into its
    four cases. *)
Ltac each_neighbour H :=
  unfold neighbours, SQUARE_DELTAS in H; cbn in H;
  repeat (apply elem_of_cons in H as [->|H]);
  [..|by apply elem_of_nil in H].



(** X2.  The board an accepted play leaves: the size is kept, the last move
    is the played point, every listed point is empty, the played point
    holds the stone unless it is listed, and every other point is as it
    was. *)
Theorem go_play_board_after g color row col pos cc cl g' :
  well_formed g ->
  go_play g color row col = Ret (Some (pos, cc, cl), g') ->
  pos = (row, col) /\ well_formed g' /\
  width g' = width g /\ height g' = height g /\
  last_row g' = Some row /\ last_col g' = Some col /\
  forall q, cell_at g' q =
    if decide (q ∈ cl) then Some None
    else if decide (q = (row, col)) then Some (Some color)
    else cell_at g q.
Proof.
  intros Hwf Hplay.
  destruct (go_play_accepted g color row col pos cc cl g' Hwf Hplay)
    as (Hpos & _ & _ & Hcells & _ & Hwf' & Hw & Hh & Hlr & Hlc & Hafter).
  split_and!; [done..|]. intros q. rewrite Hafter.
  case_decide; [done|]. apply Hcells.
Qed.

Lemma go_play_board_after_witness :
  (2, 1) = (2, 1) /\
  well_formed
    (played (board_after [(WHITE, (1, 1)); (BLACK, (0, 1)); (BLACK, (1, 0)); (BLACK, (1, 2))])
       BLACK 2 1) /\
  width
    (played (board_after [(WHITE, (1, 1)); (BLACK, (0, 1)); (BLACK, (1, 0)); (BLACK, (1, 2))])
       BLACK 2 1) =
  width (board_after [(WHITE, (1, 1)); (BLACK, (0, 1)); (BLACK, (1, 0)); (BLACK, (1, 2))]) /\
  height
    (played (board_after [(WHITE, (1, 1)); (BLACK, (0, 1)); (BLACK, (1, 0)); (BLACK, (1, 2))])
       BLACK 2 1) =
  height (board_after [(WHITE, (1, 1)); (BLACK, (0, 1)); (BLACK, (1, 0)); (BLACK, (1, 2))]) /\
  last_row
    (played (board_after [(WHITE, (1, 1)); (BLACK, (0, 1)); (BLACK, (1, 0)); (BLACK, (1, 2))])
       BLACK 2 1) = Some 2 /\
  last_col
    (played (board_after [(WHITE, (1, 1)); (BLACK, (0, 1)); (BLACK, (1, 0)); (BLACK, (1, 2))])
       BLACK 2 1) = Some 1 /\
  forall q,
    cell_at
      (played (board_after [(WHITE, (1, 1)); (BLACK, (0, 1)); (BLACK, (1, 0)); (BLACK, (1, 2))])
         BLACK 2 1) q =
    if decide (q ∈ [(1, 1)]) then Some None
    else if decide (q = (2, 1)) then Some (Some BLACK)
    else cell_at
           (board_after [(WHITE, (1, 1)); (BLACK, (0, 1)); (BLACK, (1, 0)); (BLACK, (1, 2))]) q.
Proof.
  apply (go_play_board_after
           (board_after [(WHITE, (1, 1)); (BLACK, (0, 1)); (BLACK, (1, 0)); (BLACK, (1, 2))])
           BLACK 2 1 (2, 1) (Some WHITE) [(1, 1)]).
  - split; vm_compute; [reflexivity|repeat constructor].
  - vm_compute. reflexivity.
Defined.

(** X3.  Capture.  When an accepted play leaves an opponent's group next to
    the played stone without a liberty, the play reports the opponent's
    colour, lists exactly the stones of such groups, and the played stone
    stays on the board. *)
Theorem go_play_captures_dead_groups g color row col pos cc cl g' :
  well_formed g ->
  go_play g color row col = Ret (Some (pos, cc, cl), g') ->
  (exists q, dead_neighbour (with_stone g color row col) color (row, col) q) ->
  cc = Some (opponent color) /\
  (forall s, s ∈ cl <->
     exists q, dead_neighbour (with_stone g color row col) color (row, col) q /\
       in_group (with_stone g color row col) (opponent color) q s) /\
  cell_at g' (row, col) = Some (Some color).
Proof.
  intros Hwf Hplay Hdead.
  destruct (go_play_accepted g color row col pos cc cl g' Hwf Hplay)
    as (_ & _ & Hwf1 & Hcells & Hfind & _ & _ & _ & _ & _ & Hafter).
  assert (cell_at (with_stone g color row col) (row, col) = Some (Some color)) as Hstone.
  { rewrite Hcells. by rewrite decide_True. }
  destruct (go_find_captures_exact _ color row col cc cl Hwf1 Hstone Hfind)
    as [Hcapture _].
  destruct (Hcapture Hdead) as [-> Hcl]. split_and!; [done..|].
  rewrite Hafter. rewrite decide_False; [done|].
  intros (q & _ & Hgrp%in_group_colour)%Hcl. rewrite Hstone in Hgrp.
  injection Hgrp as Hgrp. by apply eq_sym, opponent_neq in Hgrp.
Qed.

Lemma go_play_captures_dead_groups_witness :
  Some WHITE = Some (opponent BLACK) /\
  (forall s, s ∈ [(1, 1)] <->
     exists q,
       dead_neighbour
         (with_stone
            (board_after [(WHITE, (1, 1)); (BLACK, (0, 1)); (BLACK, (1, 0)); (BLACK, (1, 2))])
            BLACK 2 1) BLACK (2, 1) q /\
       in_group
         (with_stone
            (board_after [(WHITE, (1, 1)); (BLACK, (0, 1)); (BLACK, (1, 0)); (BLACK, (1, 2))])
            BLACK 2 1) (opponent BLACK) q s) /\
  cell_at
    (played (board_after [(WHITE, (1, 1)); (BLACK, (0, 1)); (BLACK, (1, 0)); (BLACK, (1, 2))])
       BLACK 2 1) (2, 1) = Some (Some BLACK).
Proof.
  apply (go_play_captures_dead_groups
           (board_after [(WHITE, (1, 1)); (BLACK, (0, 1)); (BLACK, (1, 0)); (BLACK, (1, 2))])
           BLACK 2 1 (2, 1) (Some WHITE) [(1, 1)]).
  - split; vm_compute; [reflexivity|repeat constructor].
  - vm_compute. reflexivity.
  - exists (1, 1). split_and!; [by left|vm_compute; reflexivity|].
    apply (closed_no_liberty _ WHITE [(1, 1)]); [|by left].
    intros q ->%list_elem_of_singleton. split; [vm_compute; reflexivity|].
    intros q' Hq'. each_neighbour Hq';
      (split; [vm_compute; discriminate|intros Hc; vm_compute in Hc; discriminate Hc]).
Defined.

(** X4.  Suicide.  When an accepted play captures nothing and leaves the
    played stone's own group without a liberty, the play reports the mover's
    colour and lists the stones of that group, each once; the played point
    is empty afterwards. *)
Theorem go_play_suicide_removes_own_group g color row col pos cc cl g' :
  well_formed g ->
  go_play g color row col = Ret (Some (pos, cc, cl), g') ->
  (forall q, ~ dead_neighbour (with_stone g color row col) color (row, col) q) ->
  ~ has_liberty (with_stone g color row col) (row, col) ->
  cc = Some color /\ NoDup cl /\
  (forall s, s ∈ cl <-> in_group (with_stone g color row col) color (row, col) s) /\
  cell_at g' (row, col) = Some None.
Proof.
  intros Hwf Hplay Hnone Hnolib.
  destruct (go_play_accepted g color row col pos cc cl g' Hwf Hplay)
    as (_ & _ & Hwf1 & Hcells & Hfind & _ & _ & _ & _ & _ & Hafter).
  assert (cell_at (with_stone g color row col) (row, col) = Some (Some color)) as Hstone.
  { rewrite Hcells. by rewrite decide_True. }
  destruct (go_find_captures_exact _ color row col cc cl Hwf1 Hstone Hfind)
    as (_ & Hsuicide & _).
  destruct (Hsuicide Hnone Hnolib) as (-> & Hnd & Hcl). split_and!; [done..|].
  rewrite Hafter. rewrite decide_True; [done|]. apply Hcl. by apply group_root.
Qed.

Lemma go_play_suicide_removes_own_group_witness :
  Some BLACK = Some BLACK /\ NoDup [(1, 1) : coord] /\
  (forall s, s ∈ [(1, 1)] <->
     in_group
       (with_stone
          (board_after [(WHITE, (0, 1)); (WHITE, (1, 0)); (WHITE, (1, 2)); (WHITE, (2, 1))])
          BLACK 1 1) BLACK (1, 1) s) /\
  cell_at
    (played (board_after [(WHITE, (0, 1)); (WHITE, (1, 0)); (WHITE, (1, 2)); (WHITE, (2, 1))])
       BLACK 1 1) (1, 1) = Some None.
Proof.
  apply (go_play_suicide_removes_own_group
           (board_after [(WHITE, (0, 1)); (WHITE, (1, 0)); (WHITE, (1, 2)); (WHITE, (2, 1))])
           BLACK 1 1 (1, 1) (Some BLACK) [(1, 1)]).
  - split; vm_compute; [reflexivity|repeat constructor].
  - vm_compute. reflexivity.
  - intros q (Hq & _ & Hno). apply Hno. each_neighbour Hq.
    + exists WHITE, (0, 1), (0, 0).
      split_and!; [apply group_root|right; right; left|]; vm_compute; reflexivity.
    + exists WHITE, (2, 1), (3, 1).
      split_and!; [apply group_root|right; left|]; vm_compute; reflexivity.
    + exists WHITE, (1, 0), (0, 0).
      split_and!; [apply group_root|left|]; vm_compute; reflexivity.
    + exists WHITE, (1, 2), (0, 2).
      split_and!; [apply group_root|left|]; vm_compute; reflexivity.
  - apply (closed_no_liberty _ BLACK [(1, 1)]); [|by left].
    intros q ->%list_elem_of_singleton. split; [vm_compute; reflexivity|].
    intros q' Hq'. each_neighbour Hq';
      (split; [vm_compute; discriminate|intros Hc; vm_compute in Hc; discriminate Hc]).
Defined.

(** X5.  A quiet play.  When an accepted play leaves no opponent's group
    next to the played stone without a liberty and the stone's own group
    has one, nothing is reported or listed and the board is the old one
    with the stone on it. *)
Theorem go_play_quiet g color row col pos cc cl g' :
  well_formed g ->
  go_play g color row col = Ret (Some (pos, cc, cl), g') ->
  (forall q, ~ dead_neighbour (with_stone g color row col) color (row, col) q) ->
  has_liberty (with_stone g color row col) (row, col) ->
  cc = None /\ cl = [] /\
  forall q, cell_at g' q =
    if decide (q = (row, col)) then Some (Some color) else cell_at g q.
Proof.
  intros Hwf Hplay Hnone Hlib.
  destruct (go_play_accepted g color row col pos cc cl g' Hwf Hplay)
    as (_ & _ & Hwf1 & Hcells & Hfind & _ & _ & _ & _ & _ & Hafter).
  assert (cell_at (with_stone g color row col) (row, col) = Some (Some color)) as Hstone.
  { rewrite Hcells. by rewrite decide_True. }
  destruct (go_find_captures_exact _ color row col cc cl Hwf1 Hstone Hfind)
    as (_ & _ & Hquiet).
  destruct (Hquiet Hnone Hlib) as (-> & ->). split_and!; [done..|].
  intros q. rewrite Hafter. rewrite decide_False; [apply Hcells|].
  by intros ?%elem_of_nil.
Qed.

Lemma go_play_quiet_witness :
  @None Color = None /\ @nil coord = [] /\
  forall q, cell_at (played new_goban BLACK 3 3) q =
    if decide (q = (3, 3)) then Some (Some BLACK) else cell_at new_goban q.
Proof.
  apply (go_play_quiet new_goban BLACK 3 3 (3, 3) None []).
  - split; vm_compute; [reflexivity|repeat constructor].
  - vm_compute. reflexivity.
  - intros q (Hq & Hc & _). each_neighbour Hq; vm_compute in Hc; discriminate Hc.
  - exists BLACK, (3, 3), (2, 3).
    split_and!; [apply group_root|left|]; vm_compute; reflexivity.
Defined.

(** X6.  The stones an accepted play lists all had one colour on the board
    with the played stone on it: the colour the play reports, the mover's or
    the opponent's.  A colour is reported exactly when the list is not
    empty. *)
Theorem go_play_captures_one_colour g color row col pos cc cl g' :
  well_formed g ->
  go_play g color row col = Ret (Some (pos, cc, cl), g') ->
  (cc = None <-> cl = []) /\
  forall c, cc = Some c ->
    (c = color \/ c = opponent color) /\
    forall s, s ∈ cl -> cell_at (with_stone g color row col) s = Some (Some c).
Proof.
  intros Hwf Hplay.
  destruct (go_play_accepted g color row col pos cc cl g' Hwf Hplay)
    as (_ & _ & Hwf1 & Hcells & Hfind & _).
  assert (cell_at (with_stone g color row col) (row, col) = Some (Some color)) as Hstone.
  { rewrite Hcells. by rewrite decide_True. }
  by apply (go_find_captures_colour _ color row col).
Qed.

Lemma go_play_captures_one_colour_witness :
  (Some WHITE = None <-> [(1, 1) : coord] = []) /\
  forall c, Some WHITE = Some c ->
    (c = BLACK \/ c = opponent BLACK) /\
    forall s, s ∈ [(1, 1)] ->
      cell_at
        (with_stone
           (board_after [(WHITE, (1, 1)); (BLACK, (0, 1)); (BLACK, (1, 0)); (BLACK, (1, 2))])
           BLACK 2 1) s = Some (Some c).
Proof.
  apply (go_play_captures_one_colour
           (board_after [(WHITE, (1, 1)); (BLACK, (0, 1)); (BLACK, (1, 0)); (BLACK, (1, 2))])
           BLACK 2 1 (2, 1) (Some WHITE) [(1, 1)]
           (played (board_after [(WHITE, (1, 1)); (BLACK, (0, 1)); (BLACK, (1, 0)); (BLACK, (1, 2))])
              BLACK 2 1)).
  - split; vm_compute; [reflexivity|repeat constructor].
  - vm_compute. reflexivity.
Defined.

(** X7.  The group check on its own.  Started on a stone with a new
    visitation table and the full budget, [recurse_captures] returns; it
    answers the empty list exactly when the stone's group has a liberty,
    and otherwise the stones of the group, each once. *)
Theorem recurse_captures_lists_group g color row col :
  well_formed g -> cell_at g (row, col) = Some (Some color) ->
  exists l vt',
    recurse_captures (recursion_budget g) g color row col
      (grid false (height g) (width g)) = Ret (Some l, vt') /\
    (l = [] <-> has_liberty g (row, col)) /\
    (l <> [] -> NoDup l /\ forall s, s ∈ l <-> in_group g color (row, col) s).
Proof.
  intros Hwf Hp.
  destruct (trace_exact g color (row, col) (grid false (height g) (width g)) Hwf)
    as (l & vt' & Heq & _ & _ & Hl); [apply dims_grid| |done|].
  { intros q Hq. by rewrite markedb_grid in Hq. }
  exists l, vt'. split; [done|].
  destruct Hl as [[-> Hlib]|(Hne & Hno & Hnd & Hiff)]; split; try done.
Qed.

Lemma recurse_captures_lists_group_witness :
  exists l vt',
    recurse_captures (recursion_budget (board_after [(WHITE, (0, 0)); (WHITE, (0, 1))]))
      (board_after [(WHITE, (0, 0)); (WHITE, (0, 1))]) WHITE 0 0
      (grid false (height (board_after [(WHITE, (0, 0)); (WHITE, (0, 1))]))
         (width (board_after [(WHITE, (0, 0)); (WHITE, (0, 1))]))) = Ret (Some l, vt') /\
    (l = [] <-> has_liberty (board_after [(WHITE, (0, 0)); (WHITE, (0, 1))]) (0, 0)) /\
    (l <> [] -> NoDup l /\
       forall s, s ∈ l <->
         in_group (board_after [(WHITE, (0, 0)); (WHITE, (0, 1))]) WHITE (0, 0) s).
Proof.
  apply (recurse_captures_lists_group (board_after [(WHITE, (0, 0)); (WHITE, (0, 1))])
           WHITE 0 0).
  - split; vm_compute; [reflexivity|repeat constructor].
  - vm_compute. reflexivity.
Defined.

(** ** Boards a caller can reach *)

(** X8.  Every board reached from a new goban by [resize], [invert] and
    [go_play] has a grid of exactly the recorded size, both sizes within
    [MIN_SIZE, MAX_SIZE], and a last move that is a full coordinate or none
    at all. *)
Theorem reachable_invariant g :
  reachable g ->
  well_formed g /\
  MIN_SIZE <= width g <= MAX_SIZE /\ MIN_SIZE <= height g <= MAX_SIZE /\
  (last_row g = None <-> last_col g = None).
Proof.
  intros Hreach. split; [by apply reachable_well_formed|].
  induction Hreach as [|g w h Hreach IH|g _ IH|g color row col r g' Hreach IH Hplay].
  - unfold MIN_SIZE, MAX_SIZE. cbn. split_and!; lia || done.
  - destruct (decide (MIN_SIZE <= w <= MAX_SIZE /\ MIN_SIZE <= h <= MAX_SIZE))
      as [[Hw Hh]|Hout].
    + rewrite resize_in_range by done. cbn. tauto.
    + by rewrite resize_out_of_range.
  - done.
  - destruct (go_play_ok g color row col (reachable_well_formed g Hreach))
      as [[_ Heq]|(_ & g1 & _ & [[_ Heq]|(cc & cl & g'' & _ & Heq & _ & Hw & Hh & Hlr & Hlc & _)])];
      rewrite Heq in Hplay; [|done|].
    + by injection Hplay as <- <-.
    + injection Hplay as <- <-. rewrite Hw, Hh, Hlr, Hlc. split_and!; try tauto. done.
Qed.

Lemma reachable_invariant_witness :
  well_formed (invert (resize new_goban 9 13)) /\
  MIN_SIZE <= width (invert (resize new_goban 9 13)) <= MAX_SIZE /\
  MIN_SIZE <= height (invert (resize new_goban 9 13)) <= MAX_SIZE /\
  (last_row (invert (resize new_goban 9 13)) = None <->
   last_col (invert (resize new_goban 9 13)) = None).
Proof.
  apply (reachable_invariant (invert (resize new_goban 9 13))).
  apply reach_invert, reach_resize, reach_new.
Defined.

(** ** Resizing twice, and resizing an inverted board *)

(** X10.  A resize that takes effect makes any resize before it irrelevant:
    with [w'] and [h'] in range, resizing to [w'] by [h'] after any other
    resize gives the same board as resizing to [w'] by [h'] at once. *)
Theorem resize_resize g w h w' h' :
  MIN_SIZE <= w' <= MAX_SIZE -> MIN_SIZE <= h' <= MAX_SIZE ->
  resize (resize g w h) w' h' = resize g w' h'.
Proof.
  intros Hw' Hh'.
  rewrite (resize_in_range g w' h'), (resize_in_range (resize g w h) w' h') by done.
  destruct (decide (MIN_SIZE <= w <= MAX_SIZE /\ MIN_SIZE <= h <= MAX_SIZE))
    as [[Hw Hh]|Hout].
  - rewrite (resize_in_range g w h) by done. done.
  - by rewrite (resize_out_of_range g w h).
Qed.

Lemma resize_resize_witness :
  resize (resize (board_after [(BLACK, (3, 3))]) 30 2) 9 9 =
  resize (board_after [(BLACK, (3, 3))]) 9 9.
Proof.
  apply (resize_resize (board_after [(BLACK, (3, 3))]) 30 2 9 9);
    unfold MIN_SIZE, MAX_SIZE; lia.
Defined.

(** X11.  [invert] and [resize] commute: whether the resize takes effect or
    not, inverting the resized board is resizing the inverted one. *)
Theorem invert_resize g w h :
  invert (resize g w h) = resize (invert g) w h.
Proof.
  destruct (decide (MIN_SIZE <= w <= MAX_SIZE /\ MIN_SIZE <= h <= MAX_SIZE))
    as [[Hw Hh]|Hout].
  - rewrite !resize_in_range by done. unfold invert, set_board. cbn. f_equal.
    unfold grid, py_repeat. generalize (Z.to_nat h) as n. generalize (Z.to_nat w) as m.
    intros m n. induction n as [|n IH]; [done|]. cbn. f_equal; [|done].
    clear. induction m as [|m IH]; [done|]. cbn. by f_equal.
  - by rewrite !resize_out_of_range.
Qed.

(** ** The engine does not tell the colours apart *)

Lemma insert_map {A B} (f : A -> B) (l : list A) (k : nat) (x : A) :
  map f (<[k:=x]> l) = <[k:=f x]> (map f l).
Proof. revert k. induction l as [|a l IH]; intros [|k]; cbn; [done..|]. by rewrite IH. Qed.

Lemma setitem_map {A B} (f : A -> B) (l : list A) (i : Z) (x : A) :
  setitem (map f l) i (f x) = outcome_map (map f) (setitem l i x).
Proof.
  unfold setitem. rewrite length_map.
  destruct (py_index (length l) i) as [k|]; [|done]. cbn. by rewrite insert_map.
Qed.

Lemma setitem2_map {A B} (f : A -> B) (m : list (list A)) (r c : Z) (x : A) :
  setitem2 (map (map f) m) r c (f x) = outcome_map (map (map f)) (setitem2 m r c x).
Proof.
  unfold setitem2. rewrite (getitem_map (map f)).
  destruct (getitem m r) as [row| |]; [|done..]. cbn [mbind outcome_bind].
  rewrite setitem_map. destruct (setitem row c x) as [row'| |]; [|done..].
  cbn [mbind outcome_bind outcome_map]. apply (setitem_map (map f)).
Qed.

Lemma Color_eqb_opponent_both a b : Color_eqb (opponent a) (opponent b) = Color_eqb a b.
Proof. by destruct a, b. Qed.

Lemma invert_cell_stone c : invert_cell (Some c) = Some (opponent c).
Proof. by destruct c. Qed.

Lemma recurse_deltas_ext rec rec' row col deltas return_list vt :
  (forall r c t, rec r c t = rec' r c t) ->
  recurse_deltas rec row col deltas return_list vt =
  recurse_deltas rec' row col deltas return_list vt.
Proof.
  intros Hext. revert return_list vt.
  induction deltas as [|d deltas IH]; intros rl vt; [done|].
  cbn [recurse_deltas]. rewrite Hext.
  destruct (rec' (row + d.1) (col + d.2) vt) as [[[[|s found]|] vt1]| |]; cbn; auto.
Qed.

(** The traversal for one colour on a board is the traversal for the other
    colour on the inverted board. *)
Lemma recurse_captures_invert fuel g color row col vt :
  recurse_captures fuel (invert g) (opponent color) row col vt =
  recurse_captures fuel g color row col vt.
Proof.
  revert row col vt. induction fuel as [|fuel IH]; intros row col vt; [done|].
  rewrite !recurse_captures_S.
  change (is_valid (invert g) row col) with (is_valid g row col).
  destruct (is_valid g row col); [|done]. cbn [negb].
  destruct (getitem2 vt row col) as [[|]| |]; [done| |done..].
  cbn [mbind outcome_bind].
  change (board (invert g)) with (map (map invert_cell) (board g)).
  rewrite getitem2_map.
  destruct (getitem2 (board g) row col) as [[c|]| |]; [| done..].
  cbn [mbind outcome_bind]. rewrite invert_cell_stone, Color_eqb_opponent_both.
  destruct (Color_eqb c color); [|done]. cbn [negb].
  destruct (setitem2 vt row col true) as [vt1| |]; [|done..].
  cbn [mbind outcome_bind]. by apply recurse_deltas_ext.
Qed.

Lemma scan_deltas_invert g color row col deltas oc opl esa :
  scan_deltas (invert g) (opponent color) row col deltas (opponent <$> oc, opl, esa) =
  outcome_map (fun '(oc', opl', esa') => (opponent <$> oc', opl', esa'))
    (scan_deltas g color row col deltas (oc, opl, esa)).
Proof.
  revert oc opl esa. induction deltas as [|d deltas IH]; intros oc opl esa; [done|].
  cbn [scan_deltas].
  change (is_valid (invert g) (row + d.1) (col + d.2))
    with (is_valid g (row + d.1) (col + d.2)).
  destruct (is_valid g (row + d.1) (col + d.2)); [|apply IH].
  change (board (invert g)) with (map (map invert_cell) (board g)).
  rewrite getitem2_map.
  destruct (getitem2 (board g) (row + d.1) (col + d.2)) as [[c|]| |]; [| |done..];
    cbn [mbind outcome_bind].
  - rewrite invert_cell_stone, Color_eqb_opponent_both.
    destruct (Color_eqb c color); cbn [negb]; [apply IH|].
    apply (IH (Some c)).
  - apply IH.
Qed.

Lemma check_opponents_invert g oc pieces cl vt_opt :
  check_opponents (invert g) (opponent <$> oc) pieces cl vt_opt =
  check_opponents g oc pieces cl vt_opt.
Proof.
  revert cl vt_opt. induction pieces as [|q pieces IH]; intros cl vt_opt; [done|].
  cbn [check_opponents]. destruct oc as [c|]; [|done]. cbn [fmap option_fmap option_map].
  change (recursion_budget (invert g)) with (recursion_budget g).
  change (height (invert g)) with (height g). change (width (invert g)) with (width g).
  rewrite recurse_captures_invert.
  destruct (recurse_captures _ g c q.1 q.2 _) as [[[found|] vt1]| |]; [|done..].
  cbn [mbind outcome_bind]. apply (IH _ _).
Qed.

Lemma go_find_captures_invert g row col :
  go_find_captures (invert g) row col =
  outcome_map (fun '(cc, cl) => (opponent <$> cc, cl)) (go_find_captures g row col).
Proof.
  unfold go_find_captures.
  change (board (invert g)) with (map (map invert_cell) (board g)).
  rewrite getitem2_map.
  destruct (getitem2 (board g) row col) as [[color|]| |]; [| done..].
  cbn [mbind outcome_bind]. rewrite invert_cell_stone.
  pose proof (scan_deltas_invert g color row col SQUARE_DELTAS None [] false) as Hscan.
  change (opponent <$> None) with (@None Color) in Hscan. rewrite Hscan.
  destruct (scan_deltas g color row col SQUARE_DELTAS (None, [], false))
    as [[[oc opl] esa]| |]; [|done..].
  cbn [mbind outcome_bind outcome_map].
  destruct (nonempty opl || negb esa); [|done].
  rewrite check_opponents_invert.
  destruct (check_opponents g oc opl [] None) as [[capture_list vt_opt]| |]; [|done..].
  cbn [mbind outcome_bind].
  destruct (nonempty capture_list); [by destruct oc|].
  destruct vt_opt as [vt|]; [|done].
  change (recursion_budget (invert g)) with (recursion_budget g).
  rewrite recurse_captures_invert.
  destruct (recurse_captures _ g color row col vt) as [[[found|] vt1]| |]; [|done..].
  cbn [mbind outcome_bind]. by destruct (nonempty (capture_list ++ found)).
Qed.

Lemma placed_invert g color row col :
  placed (invert g) (opponent color) row col = outcome_map invert (placed g color row col).
Proof.
  unfold placed. change (board (invert g)) with (map (map invert_cell) (board g)).
  rewrite <- invert_cell_stone, setitem2_map.
  by destruct (setitem2 (board g) row col (Some color)).
Qed.

Lemma clear_stones_invert b cl :
  clear_stones (map (map invert_cell) b) cl =
  outcome_map (map (map invert_cell)) (clear_stones b cl).
Proof.
  revert b. induction cl as [|[r c] cl IH]; intros b; [done|].
  cbn [clear_stones]. pose proof (setitem2_map invert_cell b r c None) as Hset.
  change (invert_cell None) with (@None Color) in Hset. rewrite Hset.
  destruct (setitem2 b r c None) as [b1| |]; [|done..].
  cbn [mbind outcome_bind outcome_map]. apply IH.
Qed.

(** X9.  Colour symmetry.  Playing the other colour on the inverted board
    does what playing the colour on the board does, with the colours
    swapped: the same point, the same list of stones, the same exception if
    any, the reported colour swapped and the board left inverted. *)
Theorem go_play_invert g color row col :
  go_play (invert g) (opponent color) row col =
  outcome_map (fun '(r, g') => (flip_play r, invert g')) (go_play g color row col).
Proof.
  unfold go_play.
  change (is_valid (invert g) row col) with (is_valid g row col).
  destruct (is_valid g row col); [|done]. cbn [negb].
  change (board (invert g)) with (map (map invert_cell) (board g)).
  rewrite getitem2_map.
  destruct (getitem2 (board g) row col) as [[c|]| |]; [by destruct c| |done..].
  cbn [mbind outcome_bind invert_cell]. rewrite placed_invert.
  destruct (placed g color row col) as [g1| |]; [|done..].
  cbn [mbind outcome_bind outcome_map]. rewrite go_find_captures_invert.
  destruct (go_find_captures g1 row col) as [[cc cl]| |]; [|done..].
  cbn [mbind outcome_bind outcome_map]. destruct cc as [c|]; [|done].
  cbn [fmap option_fmap option_map].
  change (board (invert g1)) with (map (map invert_cell) (board g1)).
  rewrite clear_stones_invert.
  by destruct (clear_stones (board g1) cl).
Qed.

(** ** The printable board *)

Lemma column_letters_ok (LETTERS : list string) cols :
  (forall i, i ∈ cols -> 0 <= i < Z.of_nat (length LETTERS)) ->
  exists letters, column_letters LETTERS cols = Ret letters.
Proof.
  induction cols as [|i cols IH]; intros Hin; [by eexists|].
  cbn [column_letters]. destruct (Hin i) as [Hi Hi']; [by left|].
  rewrite getitem_nonneg by done.
  destruct (lookup_lt_is_Some_2 LETTERS (Z.to_nat i)) as [letter ->]; [lia|].
  cbn [mbind outcome_bind].
  destruct IH as [rest ->]; [intros j Hj; apply Hin; by right|]. by eexists.
Qed.

Lemma column_letters_short (LETTERS : list string) cols :
  (forall i, i ∈ cols -> 0 <= i) ->
  (exists i, i ∈ cols /\ Z.of_nat (length LETTERS) <= i) ->
  column_letters LETTERS cols = Raise IndexError.
Proof.
  induction cols as [|i cols IH]; intros Hpos (j & Hj & Hlong).
  { by apply elem_of_nil in Hj. }
  cbn [column_letters]. rewrite getitem_nonneg by (apply Hpos; by left).
  destruct (LETTERS !! Z.to_nat i) as [letter|] eqn:Hi; [|done].
  cbn [mbind outcome_bind]. rewrite IH; [done| |].
  - intros k Hk. apply Hpos. by right.
  - apply elem_of_cons in Hj as [->|Hj]; [|by eauto].
    apply lookup_lt_Some in Hi. assert (0 <= i) by (apply Hpos; by left). lia.
Qed.

Lemma row_cells_ok g r cols this_str :
  well_formed g -> 0 <= r < height g ->
  (forall c, c ∈ cols -> 0 <= c < width g) ->
  exists s, row_cells g r cols this_str = Ret s.
Proof.
  intros Hwf Hr. revert this_str.
  induction cols as [|c cols IH]; intros this_str Hin; [by eexists|].
  cbn [row_cells]. destruct (getitem2_in _ _ _ r c Hwf Hr) as [loc ->]; [apply Hin; by left|].
  cbn [mbind outcome_bind]. apply IH. intros c' Hc'. apply Hin. by right.
Qed.

Lemma board_rows_ok g rows printable_board :
  well_formed g -> (forall r, r ∈ rows -> 0 <= r < height g) ->
  exists lines, board_rows g rows printable_board = Ret lines /\
    length lines = (length printable_board + length rows)%nat.
Proof.
  intros Hwf. revert printable_board.
  induction rows as [|r rows IH]; intros pb Hin.
  { exists pb. split; [done|]. cbn. lia. }
  cbn [board_rows].
  destruct (row_cells_ok g r (seqZ 0 (width g))
              (rjust 2 (str_of_int (r + 1)) +:+ " ^m|^~ ") Hwf) as [s ->].
  { apply Hin. by left. }
  { intros c Hc%elem_of_seqZ. lia. }
  cbn [mbind outcome_bind].
  match goal with
  | |- context [board_rows g rows ?pb'] => destruct (IH pb') as (lines & -> & Hlen)
  end.
  { intros r' Hr'. apply Hin. by right. }
  exists lines. split; [done|]. rewrite Hlen, length_app. cbn. lia.
Qed.

(** X12.  Rendering a board of the recorded size.  With at least as many
    letters as the board has columns, [update_printable_board] stores the
    two header lines, one line a row and the two footer lines; with fewer,
    the column header runs off [LETTERS] and it raises [IndexError]. *)
Theorem update_printable_board_lines (LETTERS : list string) g :
  well_formed g ->
  (width g <= Z.of_nat (length LETTERS) ->
   exists lines, update_printable_board LETTERS g = Ret lines /\
     length lines = (Z.to_nat (height g) + 4)%nat) /\
  (Z.of_nat (length LETTERS) < width g ->
   update_printable_board LETTERS g = Raise IndexError).
Proof.
  intros Hwf. unfold update_printable_board. split.
  - intros Hlen.
    destruct (column_letters_ok LETTERS (seqZ 0 (width g))) as [letters ->].
    { intros i Hi%elem_of_seqZ. lia. }
    cbn [mbind outcome_bind].
    match goal with
    | |- context [board_rows g ?rows ?pb] =>
        destruct (board_rows_ok g rows pb Hwf) as (lines & -> & Hlines)
    end.
    { intros r Hr%elem_of_seqZ. lia. }
    cbn [mbind outcome_bind]. eexists. split; [done|].
    rewrite length_app, Hlines, length_seqZ. cbn. lia.
  - intros Hshort. rewrite column_letters_short; [done| |].
    + intros i Hi%elem_of_seqZ. lia.
    + exists (Z.of_nat (length LETTERS)). split; [|lia]. apply elem_of_seqZ. lia.
Qed.

Lemma update_printable_board_lines_witness :
  (width (resize new_goban 3 4) <= Z.of_nat (length ["A"; "B"; "C"]) ->
   exists lines,
     update_printable_board ["A"; "B"; "C"] (resize new_goban 3 4) = Ret lines /\
     length lines = (Z.to_nat (height (resize new_goban 3 4)) + 4)%nat) /\
  (Z.of_nat (length ["A"; "B"; "C"]) < width (resize new_goban 3 4) ->
   update_printable_board ["A"; "B"; "C"] (resize new_goban 3 4) = Raise IndexError).
Proof.
  apply (update_printable_board_lines ["A"; "B"; "C"] (resize new_goban 3 4)).
  split; vm_compute; [reflexivity|repeat constructor].
Defined.

(** ** No group is left on the board without a liberty *)

Lemma neighbours_sym p q : q ∈ neighbours p -> p ∈ neighbours q.
Proof.
  destruct p as [r c]. intros Hq. unfold neighbours, SQUARE_DELTAS in *. cbn in *.
  repeat (apply elem_of_cons in Hq as [->|Hq]); [..|by apply elem_of_nil in Hq];
    cbn; rewrite !elem_of_cons.
  - right; left. f_equal; lia.
  - left. f_equal; lia.
  - do 3 right. left. f_equal; lia.
  - do 2 right. left. f_equal; lia.
Qed.

Lemma in_group_sym g c p q : in_group g c p q -> in_group g c q p.
Proof.
  induction 1 as [|q q' Hpq IH Hn Hc]; [by apply group_root|].
  apply (in_group_trans g c q' q p); [|done].
  apply (group_step g c q' q' q); [by apply group_root|by apply neighbours_sym|].
  by apply in_group_colour in Hpq.
Qed.

Lemma has_liberty_group g c p q : in_group g c p q -> has_liberty g q -> has_liberty g p.
Proof.
  intros Hpq (c' & t & e & Hgrp & He & Hempty).
  assert (c' = c) as ->.
  { apply in_group_root in Hgrp. apply in_group_colour in Hpq. congruence. }
  exists c, t, e. split_and!; [|done..]. by apply (in_group_trans g c p q t).
Qed.

(** A chain of stones is a chain on any board that shows the same stones. *)
Lemma in_group_transfer g g2 c p q :
  in_group g c p q ->
  (forall s, in_group g c p s -> cell_at g2 s = Some (Some c)) ->
  in_group g2 c p q.
Proof.
  intros Hpq Hsame. induction Hpq as [Hp|q q' Hpq IH Hn Hc].
  - apply group_root. apply Hsame. by apply group_root.
  - apply (group_step g2 c p q q'); [done..|].
    apply Hsame. by apply (group_step g c p q q').
Qed.

(** On a board of the recorded size the group check decides whether the
    group of a stone has a liberty. *)
Lemma has_liberty_dec g p c :
  well_formed g -> cell_at g p = Some (Some c) -> has_liberty g p \/ ~ has_liberty g p.
Proof.
  intros Hwf Hp.
  destruct (trace_exact g c p (grid false (height g) (width g)) Hwf)
    as (l & vt' & _ & _ & _ & [[_ ?]|(_ & ? & _)]); auto using dims_grid.
  intros q Hq. by rewrite markedb_grid in Hq.
Qed.

Lemma dead_neighbour_cases g color p :
  well_formed g ->
  (exists q, dead_neighbour g color p q) \/ (forall q, ~ dead_neighbour g color p q).
Proof.
  intros Hwf.
  assert (forall l : list coord,
    (exists q, q ∈ l /\ cell_at g q = Some (Some (opponent color)) /\ ~ has_liberty g q) \/
    (forall q, q ∈ l -> ~ (cell_at g q = Some (Some (opponent color)) /\ ~ has_liberty g q)))
    as Hlist.
  { induction l as [|q l IH].
    { right. by intros q ?%elem_of_nil. }
    destruct IH as [(q' & Hq' & Hd)|Hnone]; [left; exists q'; split; [by right|done]|].
    assert (cell_at g q = Some (Some (opponent color)) \/
            cell_at g q <> Some (Some (opponent color))) as [Hc|Hc].
    { destruct (cell_at g q) as [[[]|]|], color; cbn; auto; by right. }
    - destruct (has_liberty_dec g q _ Hwf Hc) as [Hlib|Hno].
      + right. intros x [->|Hx]%elem_of_cons; [|by apply Hnone]. by intros [_ ?].
      + left. exists q. split; [by left|done].
    - right. intros x [->|Hx]%elem_of_cons; [|by apply Hnone]. by intros [? _]. }
  destruct (Hlist (neighbours p)) as [(q & Hq & Hc & Hno)|Hnone].
  - left. by exists q.
  - right. intros q (Hq & Hc & Hno). by apply (Hnone q Hq).
Qed.

(** The three ways [go_find_captures] returns on a stone of the board. *)
Lemma go_find_captures_cases g color row col cc cl :
  well_formed g -> cell_at g (row, col) = Some (Some color) ->
  go_find_captures g row col = Ret (cc, cl) ->
  (exists q, dead_neighbour g color (row, col) q) /\
    cc = Some (opponent color) /\
    (forall s, s ∈ cl <->
       exists q, dead_neighbour g color (row, col) q /\
         in_group g (opponent color) q s) \/
  (forall q, ~ dead_neighbour g color (row, col) q) /\
    ~ has_liberty g (row, col) /\ cc = Some color /\
    (forall s, s ∈ cl <-> in_group g color (row, col) s) \/
  (forall q, ~ dead_neighbour g color (row, col) q) /\
    has_liberty g (row, col) /\ cc = None /\ cl = [].
Proof.
  intros Hwf Hp Hfind.
  destruct (go_find_captures_exact g color row col cc cl Hwf Hp Hfind)
    as (Hcapture & Hsuicide & Hquiet).
  destruct (dead_neighbour_cases g color (row, col) Hwf) as [Hdead|Hnone].
  { left. destruct (Hcapture Hdead). done. }
  right. destruct (has_liberty_dec g (row, col) color Hwf Hp) as [Hlib|Hno].
  - right. destruct (Hquiet Hnone Hlib). done.
  - left. destruct (Hsuicide Hnone Hno) as (? & _ & ?). done.
Qed.

Lemma neighbours_ne p q : q ∈ neighbours p -> q <> p.
Proof.
  destruct p as [r c]. intros Hq ->. unfold neighbours, SQUARE_DELTAS in Hq. cbn in Hq.
  repeat (apply elem_of_cons in Hq as [[= ? ?]|Hq]; [lia|]).
  by apply elem_of_nil in Hq.
Qed.

(** An accepted play keeps [all_alive]: what is out of liberties once the
    stone is down is taken off, opponent's groups first, and nothing else
    ends up without one. *)
Lemma go_play_alive g color row col pos cc cl g' :
  well_formed g -> all_alive g ->
  go_play g color row col = Ret (Some (pos, cc, cl), g') ->
  all_alive g'.
Proof.
  intros Hwf Halive Hplay.
  destruct (go_play_accepted g color row col pos cc cl g' Hwf Hplay)
    as (_ & Hempty & Hwf1 & Hcells & Hfind & _ & _ & _ & _ & _ & Hafter).
  set (g1 := with_stone g color row col) in *. set (P := (row, col)) in *.
  assert (cell_at g1 P = Some (Some color)) as Hstone.
  { rewrite Hcells. by rewrite decide_True. }
  pose proof (go_find_captures_cases g1 color row col cc cl Hwf1 Hstone Hfind) as Hcases.
  fold P in Hcases.
  (* the stones taken off are whole groups *)
  assert (forall s t c0, s ∈ cl -> in_group g1 c0 s t -> t ∈ cl) as Hwhole.
  { intros s t c0 Hs Hst.
    destruct Hcases as [(_ & _ & Hcl)|[(_ & _ & _ & Hcl)|(_ & _ & _ & ->)]].
    - apply Hcl in Hs as (q & Hq & Hqs). apply Hcl. exists q. split; [done|].
      assert (c0 = opponent color) as ->.
      { apply in_group_colour in Hqs. apply in_group_root in Hst. congruence. }
      by apply (in_group_trans g1 _ q s t).
    - apply Hcl in Hs. apply Hcl.
      assert (c0 = color) as ->.
      { apply in_group_colour in Hs. apply in_group_root in Hst. congruence. }
      by apply (in_group_trans g1 _ P s t).
    - by apply elem_of_nil in Hs. }
  intros p c Hp.
  assert (p ∉ cl) as Hkept.
  { intros Hin. rewrite Hafter in Hp. by rewrite decide_True in Hp. }
  assert (cell_at g1 p = Some (Some c)) as Hp1.
  { rewrite Hafter in Hp. by rewrite decide_False in Hp. }
  (* the group of [p] is still there *)
  assert (forall t, in_group g1 c p t -> in_group g' c p t) as Hstays.
  { intros t Ht. apply (in_group_transfer g1 g' c p t Ht).
    intros s Hs. rewrite Hafter. rewrite decide_False.
    - by apply in_group_colour in Hs.
    - intros Hin. apply Hkept. apply (Hwhole s p c Hin). by apply in_group_sym. }
  destruct (has_liberty_dec g1 p c Hwf1 Hp1) as [(c0 & q & e & Hpq & He & Hfree)|Hdead].
  { (* a liberty before the stones came off is one after *)
    assert (c0 = c) as -> by (apply in_group_root in Hpq; congruence).
    exists c, q, e. split_and!; [by apply Hstays|done|].
    rewrite Hafter. by case_decide. }
  (* out of liberties with the stone down: the group touches the stone *)
  assert (exists q, in_group g1 c p q /\ (q = P \/ q ∈ neighbours P)) as (q & Hpq & Hq).
  { destruct (decide (p = P)) as [->|Hne].
    { exists P. split; [by apply group_root|by left]. }
    assert (cell_at g p = Some (Some c)) as Hp0.
    { rewrite Hcells in Hp1. by rewrite decide_False in Hp1. }
    destruct (Halive p c Hp0) as (c0 & q & e & Hpq & He & Hfree).
    assert (c0 = c) as -> by (apply in_group_root in Hpq; congruence).
    assert (in_group g1 c p q) as Hpq1.
    { apply (in_group_transfer g g1 c p q Hpq). intros s Hs%in_group_colour.
      rewrite Hcells. rewrite decide_False; [done|]. intros ->. congruence. }
    exists q. split; [done|]. right.
    destruct (decide (e = P)) as [->|HeP]; [by apply neighbours_sym|].
    exfalso. apply Hdead. exists c, q, e. split_and!; [done..|].
    rewrite Hcells. by rewrite decide_False. }
  assert (c = color -> in_group g1 color p P) as Hown.
  { intros ->. destruct Hq as [->|Hq]; [done|].
    apply (group_step g1 color p q P); [done|by apply neighbours_sym|done]. }
  assert (c <> color -> dead_neighbour g1 color P q) as Hopp.
  { intros Hne. destruct Hq as [->|Hq].
    { apply in_group_colour in Hpq. congruence. }
    split_and!; [done| |].
    - apply in_group_colour in Hpq. rewrite Hpq. by destruct c, color.
    - intros Hlib. apply Hdead. by apply (has_liberty_group g1 c p q). }
  assert (c = color \/ c <> color) as [Hc|Hc] by (destruct c, color; auto).
  - specialize (Hown Hc). subst c.
    destruct Hcases as [((q' & Hn' & Hc' & Hd') & _ & Hcl)|[(_ & _ & _ & Hcl)|(_ & Hlib & _)]].
    + (* a capture freed a point next to the played stone *)
      exists color, P, q'. split_and!; [by apply Hstays|done|].
      rewrite Hafter. rewrite decide_True; [done|]. apply Hcl.
      exists q'. split; [done|]. by apply group_root.
    + exfalso. apply Hkept, Hcl. by apply in_group_sym.
    + exfalso. apply Hdead. by apply (has_liberty_group g1 color p P).
  - specialize (Hopp Hc).
    destruct Hcases as [(_ & _ & Hcl)|[(Hnone & _)|(Hnone & _)]].
    + exfalso. apply Hkept, Hcl. exists q. split; [done|].
      apply in_group_sym. destruct Hopp as (_ & Hcq & _).
      apply in_group_colour in Hpq as Hcq'. rewrite Hcq in Hcq'. injection Hcq' as <-.
      done.
    + by destruct (Hnone q).
    + by destruct (Hnone q).
Qed.

Lemma cell_at_init_board g q :
  cell_at (init_board g) q = if is_valid g q.1 q.2 then Some None else None.
Proof.
  unfold init_board. rewrite cell_at_set_board.
  destruct (is_valid g q.1 q.2) eqn:Hv; [|done].
  apply is_valid_spec in Hv as [? ?]. by rewrite getitem2_grid.
Qed.

Lemma all_alive_init_board g : all_alive (init_board g).
Proof.
  intros p c Hp. rewrite cell_at_init_board in Hp. by destruct (is_valid g p.1 p.2).
Qed.

Lemma cell_at_invert g q : cell_at (invert g) q = invert_cell <$> cell_at g q.
Proof.
  unfold invert. rewrite cell_at_set_board. unfold cell_at.
  destruct (is_valid g q.1 q.2); [|done].
  rewrite getitem2_map. by destruct (getitem2 (board g) q.1 q.2).
Qed.

Lemma in_group_invert g c p q :
  in_group g c p q -> in_group (invert g) (opponent c) p q.
Proof.
  induction 1 as [Hp|q q' _ IH Hn Hc].
  - apply group_root. by rewrite cell_at_invert, Hp, <- invert_cell_stone.
  - apply (group_step _ _ p q q'); [done..|].
    by rewrite cell_at_invert, Hc, <- invert_cell_stone.
Qed.

Lemma all_alive_invert g : all_alive g -> all_alive (invert g).
Proof.
  intros Halive p c Hp. rewrite cell_at_invert in Hp.
  destruct (cell_at g p) as [[c'|]|] eqn:Hp'; [|done..].
  destruct (Halive p c' Hp') as (c0 & q & e & Hpq & He & Hfree).
  exists (opponent c0), q, e. split_and!; [by apply in_group_invert|done|].
  by rewrite cell_at_invert, Hfree.
Qed.

(** X13.  An accepted play on a board of the recorded size where every
    group has a liberty leaves a board where every group has a liberty. *)
Theorem go_play_keeps_groups_alive g color row col pos cc cl g' :
  well_formed g -> all_alive g ->
  go_play g color row col = Ret (Some (pos, cc, cl), g') ->
  all_alive g'.
Proof. apply go_play_alive. Qed.

Lemma go_play_keeps_groups_alive_witness :
  all_alive (played (played new_goban BLACK 3 3) WHITE 3 4).
Proof.
  apply (go_play_keeps_groups_alive (played new_goban BLACK 3 3) WHITE 3 4
           (3, 4) None []).
  - split; vm_compute; [reflexivity|repeat constructor].
  - apply (go_play_keeps_groups_alive new_goban BLACK 3 3 (3, 3) None []).
    + split; vm_compute; [reflexivity|repeat constructor].
    + apply all_alive_init_board.
    + vm_compute. reflexivity.
  - vm_compute. reflexivity.
Defined.

(** X14.  On every board reached from a new goban by [resize], [invert] and
    [go_play], every stone belongs to a group with a liberty. *)
Theorem reachable_all_alive g : reachable g -> all_alive g.
Proof.
  induction 1 as [|g w h _ IH|g _ IH|g color row col r g' Hreach IH Hplay].
  - apply all_alive_init_board.
  - unfold resize. destruct (_ || _); [done|]. apply all_alive_init_board.
  - by apply all_alive_invert.
  - pose proof (reachable_well_formed g Hreach) as Hwf.
    destruct (go_play_ok g color row col Hwf)
      as [[_ Heq]|(_ & g1 & _ & [[_ Heq]|(cc & cl & g'' & _ & Heq & _)])].
    + rewrite Heq in Hplay. by injection Hplay as <- <-.
    + rewrite Heq in Hplay. discriminate Hplay.
    + rewrite Heq in Hplay. injection Hplay as <- <-.
      by apply (go_play_alive g color row col (row, col) cc cl g'').
Qed.

Lemma reachable_all_alive_witness :
  all_alive
    (played (board_after [(WHITE, (1, 1)); (BLACK, (0, 1)); (BLACK, (1, 0)); (BLACK, (1, 2))])
       BLACK 2 1).
Proof.
  apply reachable_all_alive.
  apply (reach_play
           (board_after [(WHITE, (1, 1)); (BLACK, (0, 1)); (BLACK, (1, 0)); (BLACK, (1, 2))])
           BLACK 2 1 (Some ((2, 1), Some WHITE, [(1, 1)]))).
  - apply (reachable_play_all
             [(WHITE, (1, 1)); (BLACK, (0, 1)); (BLACK, (1, 0)); (BLACK, (1, 2))] new_goban);
      [apply reach_new|vm_compute; reflexivity].
  - vm_compute. reflexivity.
Defined.

(** ** When the list of captured stones has no repeats *)

Lemma NoDup_neighbours p : NoDup (neighbours p).
Proof.
  destruct p as [r c]. unfold neighbours, SQUARE_DELTAS. cbn.
  repeat (apply NoDup_cons_2;
          [rewrite ?elem_of_cons, elem_of_nil; intros Hin;
           repeat (destruct Hin as [Heq|Hin]; [inversion Heq; lia|]); done|]).
  apply NoDup_nil_2.
Qed.

Lemma scan_deltas_nodup g color row col deltas oc opl esa oc' opl' esa' :
  NoDup (opl ++ ((fun d : coord => (row + d.1, col + d.2)) <$> deltas)) ->
  scan_deltas g color row col deltas (oc, opl, esa) = Ret (oc', opl', esa') ->
  NoDup opl'.
Proof.
  revert oc opl esa. induction deltas as [|d deltas IH]; intros oc opl esa Hnd Hscan.
  { cbn in Hscan. injection Hscan as <- <- <-. by rewrite app_nil_r in Hnd. }
  cbn [scan_deltas] in Hscan. rewrite fmap_cons in Hnd.
  assert (NoDup (opl ++ ((fun d : coord => (row + d.1, col + d.2)) <$> deltas))) as Hskip.
  { apply NoDup_app in Hnd as (? & Hdis & [_ ?]%NoDup_cons). apply NoDup_app.
    split_and!; [done| |done]. intros x Hx Hx'. apply (Hdis x Hx). by right. }
  destruct (is_valid g (row + d.1) (col + d.2)); [|by apply (IH oc opl esa)].
  destruct (getitem2 (board g) (row + d.1) (col + d.2)) as [[p|]| |]; [| |done..];
    cbn [mbind outcome_bind] in Hscan.
  - destruct (Color_eqb p color); cbn [negb] in Hscan; [by apply (IH oc opl esa)|].
    eapply IH; [|exact Hscan]. rewrite <- app_assoc. exact Hnd.
  - by apply (IH oc opl true).
Qed.

Lemma check_opponents_nodup g oc :
  well_formed g ->
  forall pieces cl (vt_opt : option table) cl' vt_opt',
    NoDup pieces ->
    (forall q, q ∈ pieces -> cell_at g q = Some (Some oc)) ->
    (forall q q', q ∈ pieces -> q' ∈ pieces -> ~ has_liberty g q ->
       in_group g oc q q' -> q = q') ->
    check_opponents g (Some oc) pieces cl vt_opt = Ret (cl', vt_opt') ->
    exists extra, cl' = cl ++ extra /\ NoDup extra.
Proof.
  intros Hwf. induction pieces as [|q pieces IH];
    intros cl vt_opt cl' vt_opt' Hnd Hpieces Hapart Hchk.
  { cbn in Hchk. injection Hchk as <- <-. exists []. by rewrite app_nil_r. }
  cbn [check_opponents] in Hchk.
  destruct (trace_exact g oc q (grid false (height g) (width g)) Hwf)
    as (found & vt' & Heq & _ & _ & Hfound).
  { apply dims_grid. }
  { intros x Hx. by rewrite markedb_grid in Hx. }
  { apply Hpieces. by left. }
  rewrite Heq in Hchk. cbn [mbind outcome_bind] in Hchk.
  apply NoDup_cons in Hnd as [Hq Hnd].
  destruct (check_opponents_exact g oc Hwf pieces (cl ++ found) (Some vt'))
    as (extra & vt_opt'' & Hchk' & Hextra).
  { intros x Hx. apply Hpieces. by right. }
  destruct (IH (cl ++ found) (Some vt') cl' vt_opt' Hnd) as (extra' & Hcl' & Hnd');
    [|intros x y Hx Hy; apply Hapart; by right|done|].
  { intros x Hx. apply Hpieces. by right. }
  rewrite Hchk in Hchk'. injection Hchk' as Hsame _. rewrite Hcl' in Hsame.
  apply app_inv_head in Hsame as <-.
  exists (found ++ extra'). rewrite Hcl', <- app_assoc. split; [done|].
  apply NoDup_app. split_and!; [|  |done].
  - by destruct Hfound as [[-> _]|(_ & _ & ? & _)]; [apply NoDup_nil_2|].
  - intros s Hs (q' & Hq' & Hdead' & Hgrp')%Hextra.
    destruct Hfound as [[-> _]|(_ & Hdead & _ & Hiff)]; [by apply elem_of_nil in Hs|].
    apply Hiff in Hs.
    assert (q = q') as ->; [|done].
    apply Hapart; [by left|by right|done|].
    apply (in_group_trans g oc q s q'); [done|by apply in_group_sym].
Qed.

(** X15.  When no two of the dead opponent's stones next to the played
    stone belong to one group, the list an accepted play returns names no
    stone twice. *)
Theorem go_play_capture_list_nodup g color row col pos cc cl g' :
  well_formed g ->
  go_play g color row col = Ret (Some (pos, cc, cl), g') ->
  (forall q q',
     dead_neighbour (with_stone g color row col) color (row, col) q ->
     dead_neighbour (with_stone g color row col) color (row, col) q' ->
     in_group (with_stone g color row col) (opponent color) q q' -> q = q') ->
  NoDup cl.
Proof.
  intros Hwf Hplay Hapart.
  destruct (go_play_accepted g color row col pos cc cl g' Hwf Hplay)
    as (_ & _ & Hwf1 & Hcells & Hfind & _).
  set (g1 := with_stone g color row col) in *.
  assert (cell_at g1 (row, col) = Some (Some color)) as Hp.
  { rewrite Hcells. by rewrite decide_True. }
  pose proof Hp as [Hv Hget]%cell_at_valid. cbn in Hv, Hget.
  unfold go_find_captures in Hfind. rewrite Hget in Hfind.
  cbn [mbind outcome_bind] in Hfind.
  destruct (scan_deltas_ok g1 color row col Hwf1 SQUARE_DELTAS None [] false)
    as (oc & opl & esa & Hscan & Hoc & Hopl & _); [done|].
  pose proof (scan_deltas_nodup g1 color row col SQUARE_DELTAS None [] false oc opl esa
                (NoDup_neighbours (row, col)) Hscan) as Hndopl.
  rewrite Hscan in Hfind. cbn [mbind outcome_bind] in Hfind.
  fold (neighbours (row, col)) in Hopl.
  assert (forall q, q ∈ opl <->
    q ∈ neighbours (row, col) /\ cell_at g1 q = Some (Some (opponent color))) as Hopl'.
  { intros q. rewrite Hopl. split; [by intros [[]%elem_of_nil|?]|by right]. }
  destruct opl as [|q0 opl].
  { cbn [nonempty orb check_opponents] in Hfind. destruct esa; cbn [negb] in Hfind; [|done].
    injection Hfind as <- <-. apply NoDup_nil_2. }
  rewrite Hoc in Hfind by done. cbn [nonempty orb] in Hfind.
  destruct (check_opponents_ok g1 (opponent color) Hwf1 (q0 :: opl) [] (@None table))
    as (extra & vt_opt & Hchk & Ht & Hsome & _).
  { intros q Hq. by apply Hopl'. }
  { done. }
  destruct (check_opponents_nodup g1 (opponent color) Hwf1 (q0 :: opl) [] None
              ([] ++ extra) vt_opt Hndopl) as (extra' & Heq & Hnd).
  { intros q Hq. by apply Hopl'. }
  { intros q q' Hq Hq' Hdead Hgrp. apply Hapart; [| |done].
    - apply Hopl' in Hq as [? ?]. done.
    - apply Hopl' in Hq' as [? ?]. split_and!; [done..|].
      intros Hlib. apply Hdead. by apply (has_liberty_group g1 (opponent color) q q'). }
  { exact Hchk. }
  cbn [app] in Heq. subst extra'.
  rewrite Hchk in Hfind. cbn [mbind outcome_bind app] in Hfind.
  destruct extra as [|s extra]; cbn [nonempty] in Hfind.
  2:{ by injection Hfind as <- <-. }
  destruct Hsome as [vt ->]; [done|]. destruct (Ht vt eq_refl) as [Hd Hmarks].
  destruct (trace_exact g1 color (row, col) vt Hwf1 Hd) as (l & vt' & Heq & _ & _ & Hl).
  { intros q Hq. exists (opponent color). split; [by apply Hmarks|apply opponent_neq]. }
  { done. }
  cbn [fst snd] in Heq. rewrite Heq in Hfind. cbn [mbind outcome_bind app] in Hfind.
  destruct Hl as [[-> _]|(_ & _ & Hnd' & _)].
  - injection Hfind as <- <-. apply NoDup_nil_2.
  - destruct l as [|s l]; cbn [nonempty] in Hfind; injection Hfind as <- <-; [apply NoDup_nil_2|done].
Qed.

Lemma go_play_capture_list_nodup_witness : NoDup [(1, 1) : coord].
Proof.
  apply (go_play_capture_list_nodup
           (board_after [(WHITE, (1, 1)); (BLACK, (0, 1)); (BLACK, (1, 0)); (BLACK, (1, 2))])
           BLACK 2 1 (2, 1) (Some WHITE) [(1, 1)]
           (played (board_after [(WHITE, (1, 1)); (BLACK, (0, 1)); (BLACK, (1, 0)); (BLACK, (1, 2))])
              BLACK 2 1)).
  - split; vm_compute; [reflexivity|repeat constructor].
  - vm_compute. reflexivity.
  - intros q q' (Hq & Hc & _) (Hq' & Hc' & _) _.
    each_neighbour Hq; each_neighbour Hq'; try done;
      (vm_compute in Hc; try discriminate Hc); (vm_compute in Hc'; discriminate Hc').
Defined.
